(** * grun: the gtk application start-up wrapper, embedded in Rocq

    The package [grun] (file [grun.go]) declares an application as a record
    ([App]), runs lists of dynamically typed [Action]s ([Exec]), packs the
    first usable widget into a window ([Pack]) and drives the toolkit
    ([Init], [Run]).  This development embeds those functions as state
    passing programs over a [World] and proves what they do.

    Conventions of the embedding:
    - Go's [int] values ([Width], [Height], exit codes) are [Z]; the package
      only stores and compares them, so no wrap-around ever takes place.
    - A nil interface or pointer is [None].
    - An [error] is observed by this package through its [Error] method and
      through comparison with nil only: the model keeps its message.
    - The toolkit (gotk4) is not part of the package.  The calls the package
      makes into it are recorded, in order, in the [World]. *)

From Stdlib Require Import String Ascii List ZArith Bool Lia.
Import ListNotations.
Local Open Scope list_scope.
Local Open Scope string_scope.

Set Implicit Arguments.
#[local] Set Warnings "-register-all".

(** ** Errors and the [Errors] list (grun.go, section ERRORS) *)

(** A non-nil value of Go's interface [error]. *)
Record error : Type := errors_New { Error : string }.

(** [strings.Join] of the Go standard library: nothing for no element, the
    element itself for one, and otherwise the first element followed by
    each other one behind a separator. *)
Fixpoint join_rest (sep : string) (elems : list string) : string :=
  match elems with
  | [] => ""
  | s :: rest => sep ++ s ++ join_rest sep rest
  end.

Definition strings_Join (elems : list string) (sep : string) : string :=
  match elems with
  | [] => ""
  | [s] => s
  | s :: rest => s ++ join_rest sep rest
  end.

Module Errors.

(** [type Errors []error] *)
Definition t : Type := list error.

(** [func (e Errors) IsError() bool { return len(e) > 0 }] *)
Definition IsError (e : t) : bool := (0 <? length e)%nat.

(** [func (e *Errors) Append(more ...error)] *)
Definition Append (e : t) (more : list error) : t := (e ++ more)%list.

(** [func (e Errors) Error() string] *)
Definition Error (e : t) : string :=
  if (length e =? 0)%nat then ""
  else strings_Join (map Error e) (String "010" "").

(** [func (e Errors) ToError() error { return errors.New(e.Error()) }] *)
Definition ToError (e : t) : error := errors_New (Error e).

End Errors.

(** ** The part of package [fmt] the package relies on

    [Printf], [Sprintf] and [Errorf] are called with the format variables
    below and with strings and errors as operands.  The model covers the
    verbs [%s], [%v], [%T], [%w] (valid in [Errorf] for an error operand
    only) and [%%], the wrong-verb and missing-operand markers, and the
    list of unused operands; flags, widths and precisions are not
    modelled. *)

Record operand : Type := Operand {
  op_type : string;   (* what %T prints *)
  op_text : string;   (* what %v prints *)
  op_error : bool     (* the operand implements error *)
}.

Definition str_operand (s : string) : operand := Operand "string" s false.
Definition err_operand (e : error) : operand :=
  Operand "*errors.errorString" (Error e) true.

Definition bad_verb (c : ascii) (a : operand) : string :=
  "%!" ++ String c ("(" ++ op_type a ++ "=" ++ op_text a ++ ")").

Definition fmt_verb (errorf : bool) (c : ascii) (a : operand) : string :=
  if (Ascii.eqb c "s" || Ascii.eqb c "v")%char then op_text a
  else if Ascii.eqb c "T"%char then op_type a
  else if Ascii.eqb c "w"%char then
    (if errorf && op_error a then op_text a else bad_verb c a)
  else bad_verb c a.

Definition fmt_extra (args : list operand) : string :=
  match args with
  | [] => ""
  | _ => "%!(EXTRA "
         ++ strings_Join (map (fun a => op_type a ++ "=" ++ op_text a) args) ", "
         ++ ")"
  end.

Fixpoint doPrintf (errorf : bool) (format : string) (args : list operand)
  : string :=
  match format with
  | EmptyString => fmt_extra args
  | String c rest =>
    if Ascii.eqb c "%"%char then
      match rest with
      | EmptyString => "%!(NOVERB)" ++ fmt_extra args
      | String v rest' =>
        if Ascii.eqb v "%"%char then String "%" (doPrintf errorf rest' args)
        else match args with
             | [] => "%!" ++ String v ("(MISSING)" ++ doPrintf errorf rest' [])
             | a :: args' => fmt_verb errorf v a ++ doPrintf errorf rest' args'
             end
      end
    else String c (doPrintf errorf rest args)
  end.

Definition fmt_Sprintf (format : string) (args : list operand) : string :=
  doPrintf false format args.

Definition fmt_Errorf (format : string) (args : list operand) : error :=
  errors_New (doPrintf true format args).

(** ** Package variables (the two [var] blocks of grun.go)

    They are variables, not constants: a program may assign them (the
    example sets [FmtErrRun]), so they live in the [World]. *)

Module Pkg.

Record vars : Type := Vars {
  FmtErrExec : string;         (* Format: name, error *)
  FmtErrRun : string;          (* Format: error *)
  FmtErrTypeUnknown : string;  (* Format: interface{} *)
  FmtErrLabel : string;
  TxtErrNoWidget : string;
  FmtID : string;              (* Format: repo, package *)
  FmtTitle : string;           (* Format: repo, package *)
  FmtTitleTest : string        (* Format: repo/package *)
}.

(** The values the package is initialised with. *)
Definition initial : vars := {|
  FmtErrExec := "grun.Exec(%s): %w";
  FmtErrRun := "grun.Run: %s";
  FmtErrTypeUnknown := "grun exec func type unknown: %T";
  FmtErrLabel := String.concat (String "010" "") ["errors:"; "%s"];
  TxtErrNoWidget := "grun.Errors.Widget called without widget";
  FmtID := "com.github.gtkool4.default.%s.%s";
  FmtTitle := "%s/%s";
  FmtTitleTest := "go test %s"
|}.

End Pkg.

(** ** The toolkit as the package sees it *)

(** A non-nil [gtk.Widgetter].  [gtk.NewLabel] builds a [Label]; any other
    widget a caller builds is told apart by a number. *)
Inductive Widget : Type :=
| Label (text : string)
| Widget_other (n : nat).

Definition gtk_NewLabel (text : string) : Widget := Label text.

(** Calls on [*gtk.ApplicationWindow] values.  A window is named by its
    rank among the windows created so far. *)
Inductive WinCall : Type :=
| NewApplicationWindow (win : nat)
| SetTitle (win : nat) (title : string)
| SetDefaultSize (win : nat) (width height : Z)
| Close (win : nat)
| SetChild (win : nat) (child : Widget)
| Show (win : nat).

(** Calls on the [*gtk.Application] value. *)
Inductive AppCall : Type :=
| NewApplication (id : string) (flags : Z)
| Connect (signal : string)
| ApplicationRun (args : list string)
| Quit.

(** ** The [App] record

    The three callback slots [OnInit], [OnRun] and [OnStop] are read by
    [Run] and [Init] before any action runs; they are kept in [Callbacks]
    below, and the fields that actions read and write while the
    application runs are kept here. *)
Record App : Type := mkApp {
  ID : string;
  Title : string;
  Width : Z;
  Height : Z;
  Args : list string;
  Flags : Z;
  Headless : bool;
  GuessName : bool;
  FmtID : string;
  FmtTitle : string;
  GtkApp : bool;        (* field [App]: the *gtk.Application is set *)
  Win : option nat;     (* field [Win]: the *gtk.ApplicationWindow, or nil *)
  exitCode : Z
}.

(** [&App{}]: every field at its zero value. *)
Definition App_zero : App :=
  mkApp "" "" 0 0 [] 0 false false "" "" false None 0.

(** Everything a closure of the program can reach. *)
Record World : Type := mkWorld {
  app : App;                       (* the *App the closures share *)
  pkg : Pkg.vars;                  (* the package variables *)
  application : list AppCall;      (* calls on the application, oldest first *)
  windows : list WinCall;          (* calls on windows, oldest first *)
  stdout : list string;            (* what was printed, oldest first *)
  heap : list (string * Z)         (* variables the closures captured *)
}.

Definition World_zero : World :=
  mkWorld App_zero Pkg.initial [] [] [] [].

(** ** State passing *)

Definition M (A : Type) : Type := World -> A * World.

Definition ret {A : Type} (a : A) : M A := fun w => (a, w).

Definition bind {A B : Type} (m : M A) (k : A -> M B) : M B :=
  fun w => let (a, w') := m w in k a w'.

Declare Scope prog_scope.
Delimit Scope prog_scope with prog.
Notation "x <- m ;; k" := (bind m (fun x => k))
  (at level 61, m at next level, right associativity) : prog_scope.
Notation "m ;; k" := (bind m (fun _ => k))
  (at level 61, right associativity) : prog_scope.
Local Open Scope prog_scope.

Definition gets {A : Type} (f : World -> A) : M A := fun w => (f w, w).
Definition modify (f : World -> World) : M unit := fun w => (tt, f w).
Definition when (b : bool) (m : M unit) : M unit := if b then m else ret tt.

Definition with_app (f : App -> App) (w : World) : World :=
  mkWorld (f (app w)) (pkg w) (application w) (windows w) (stdout w) (heap w).

Definition set_ID (s : string) (a : App) : App :=
  mkApp s (Title a) (Width a) (Height a) (Args a) (Flags a) (Headless a)
        (GuessName a) (FmtID a) (FmtTitle a) (GtkApp a) (Win a) (exitCode a).

Definition set_FmtTitle (s : string) (a : App) : App :=
  mkApp (ID a) (Title a) (Width a) (Height a) (Args a) (Flags a) (Headless a)
        (GuessName a) (FmtID a) s (GtkApp a) (Win a) (exitCode a).

Definition set_GtkApp (b : bool) (a : App) : App :=
  mkApp (ID a) (Title a) (Width a) (Height a) (Args a) (Flags a) (Headless a)
        (GuessName a) (FmtID a) (FmtTitle a) b (Win a) (exitCode a).

Definition set_Win (o : option nat) (a : App) : App :=
  mkApp (ID a) (Title a) (Width a) (Height a) (Args a) (Flags a) (Headless a)
        (GuessName a) (FmtID a) (FmtTitle a) (GtkApp a) o (exitCode a).

Definition set_exitCode (c : Z) (a : App) : App :=
  mkApp (ID a) (Title a) (Width a) (Height a) (Args a) (Flags a) (Headless a)
        (GuessName a) (FmtID a) (FmtTitle a) (GtkApp a) (Win a) c.

(** The toolkit entry points: each one records its call. *)
Definition app_call (c : AppCall) : M unit :=
  modify (fun w => mkWorld (app w) (pkg w) (application w ++ [c])%list
                           (windows w) (stdout w) (heap w)).

Definition win_call (c : WinCall) : M unit :=
  modify (fun w => mkWorld (app w) (pkg w) (application w)
                           (windows w ++ [c])%list (stdout w) (heap w)).

Definition fmt_Print (s : string) : M unit :=
  modify (fun w => mkWorld (app w) (pkg w) (application w) (windows w)
                           (stdout w ++ [s])%list (heap w)).

Definition is_new_window (c : WinCall) : bool :=
  match c with NewApplicationWindow _ => true | _ => false end.

Definition is_show (c : WinCall) : bool :=
  match c with Show _ => true | _ => false end.

Definition is_close (c : WinCall) : bool :=
  match c with Close _ => true | _ => false end.

(** How many windows were created, shown and closed so far. *)
Definition created (w : World) : nat := length (filter is_new_window (windows w)).
Definition shown (w : World) : nat := length (filter is_show (windows w)).
Definition closed (w : World) : nat := length (filter is_close (windows w)).

(** [gtk.NewApplicationWindow(app.App)]: the new window takes the next rank. *)
Definition gtk_NewApplicationWindow : M nat :=
  win <- gets created ;;
  win_call (NewApplicationWindow win) ;;
  ret win.

(** A method called through the pointer held in [app.Win].  With a nil
    pointer the Go program stops with a run-time panic; the model records
    nothing then, and no theorem below is stated for such a state. *)
Definition on_Win (c : nat -> WinCall) : M unit :=
  o <- gets (fun w => Win (app w)) ;;
  match o with
  | Some win => win_call (c win)
  | None => ret tt
  end.

(** ** [NewWindow] and [Pack] *)

(** [func (app *App) NewWindow() *gtk.ApplicationWindow] *)
Definition NewWindow : M nat :=
  win <- gtk_NewApplicationWindow ;;
  a <- gets app ;;
  when (negb (Title a =? "")) (win_call (SetTitle win (Title a))) ;;
  when ((0 <? Width a)%Z && (0 <? Height a)%Z)
       (win_call (SetDefaultSize win (Width a) (Height a))) ;;
  ret win.

(** [app.Win = app.NewWindow()] *)
Definition open_window : M unit :=
  win <- NewWindow ;;
  modify (with_app (set_Win (Some win))).

Definition is_Some {A : Type} (o : option A) : bool :=
  match o with Some _ => true | None => false end.

(** [func (app *App) Pack(call func() gtk.Widgetter)]

    The closures [Exec] hands to [Pack] assign variables of [Exec] itself
    ([w, e = call()]).  A builder therefore yields, next to its widget, the
    value [X] it assigned, and [Pack] hands that value on; a builder that
    assigns nothing yields [tt]. *)
Definition Pack {X : Type} (call : M (option Widget * X)) : M X :=
  a <- gets app ;;
  if Headless a || is_Some (Win a) then
    r <- call ;;                (* Drop widget. *)
    ret (snd r)
  else
    open_window ;;
    r <- call ;;
    match fst r with
    | None =>
      on_Win Close ;;
      modify (with_app (set_Win None)) ;;
      ret (snd r)
    | Some child =>
      on_Win (fun win => SetChild win child) ;;
      on_Win Show ;;
      ret (snd r)
    end.

(** ** Actions

    [type Action interface{}]: any value.  The type switch of [Exec] tells
    sixteen dynamic types apart; every other value takes its [default]
    branch.  One constructor per branch, in the order of the switch.  A Go
    closure may read and write whatever it captured, so each function
    value is a program over the [World]; whether the source passes it
    [app] or not makes no difference to what it can reach. *)
Inductive Action : Type :=
| AFnWidget (call : M (option Widget))                  (* func() gtk.Widgetter *)
| AFnAppWidget (call : M (option Widget))               (* func(app *App) gtk.Widgetter *)
| AFnWidgetErr (call : M (option Widget * option error))    (* func() (gtk.Widgetter, error) *)
| AFnAppWidgetErr (call : M (option Widget * option error)) (* func(app *App) (gtk.Widgetter, error) *)
| AChan (recv : M (option Widget))                      (* chan gtk.Widgetter: the receive *)
| AFnAppWidgetErrors (call : M (option Widget * Errors.t))  (* func(app *App) (gtk.Widgetter, Errors) *)
| AFn (call : M unit)                                   (* func() *)
| AFnErr (call : M (option error))                      (* func() error *)
| AParam (call : M unit)                                (* Param *)
| AFnApp (call : M unit)                                (* func(app *App) *)
| AFnAppErr (call : M (option error))                   (* func(app *App) error *)
| AFnFnApp (call : M (M unit))                          (* func() func(app *App) *)
| AList (calls : list Action)                           (* []interface{} *)
| AMap (calls : list (string * Action))                 (* map[string]interface{}, as ranged over *)
| AString (s : string)                                  (* string *)
| AFnString (call : M string)                           (* func() string *)
| AFnAppString (call : M string)                        (* func(app *App) string *)
| AOther (v : operand).                                 (* any other value *)

(** How one turn of the loop of [Exec] ends: with a [return] statement, or
    by reaching the end of the loop body. *)
Inductive Flow : Type :=
| Return (e : option error)
| Next.

(** The end of the loop body: [if e != nil { return e }]. *)
Definition check (e : option error) : Flow :=
  match e with
  | Some _ => Return e
  | None => Next
  end.

(** The builder [func() gtk.Widgetter { w, e = call(); if e != nil { return
    nil }; return w }]: it assigns [e] of [Exec]. *)
Definition widget_or_error (call : M (option Widget * option error))
  : M (option Widget * option error) :=
  r <- call ;;
  match snd r with
  | Some _ => ret (None, snd r)
  | None => ret (fst r, snd r)
  end.

(** The builder of the [Errors] branch: [w, errs := call(app)] declares
    variables of its own, so nothing of [Exec] is assigned. *)
Definition widget_or_errors (call : M (option Widget * Errors.t))
  : M (option Widget * unit) :=
  r <- call ;;
  if Errors.IsError (snd r) then ret (None, tt) else ret (fst r, tt).

Definition plain {A : Type} (call : M A) (f : A -> option Widget)
  : M (option Widget * unit) :=
  r <- call ;; ret (f r, tt).

(** One turn of the loop of [Exec]: the type switch on one value.  The
    variable [e] of [Exec] is nil whenever a turn starts, since a turn that
    leaves it non-nil returns. *)
Fixpoint exec_item (uncast : Action) : M Flow :=
  match uncast with
  (* Widgets. *)
  | AFnWidget call => Pack (plain call (fun w => w)) ;; ret Next
  | AFnAppWidget call => Pack (plain call (fun w => w)) ;; ret Next
  | AFnWidgetErr call => e <- Pack (widget_or_error call) ;; ret (check e)
  | AFnAppWidgetErr call => e <- Pack (widget_or_error call) ;; ret (check e)
  | AChan recv => Pack (plain recv (fun w => w)) ;; ret Next
  (* Errors: errors lists *)
  | AFnAppWidgetErrors call =>
    let errs : Errors.t := [] in              (* var errs Errors *)
    Pack (widget_or_errors call) ;;
    if Errors.IsError errs then ret (Return (Some (Errors.ToError errs)))
    else ret Next
  (* Headless. *)
  | AFn call => call ;; ret Next
  | AFnErr call => e <- call ;; ret (Return e)
  | AParam call => call ;; ret Next
  | AFnApp call => call ;; ret Next
  | AFnAppErr call => e <- call ;; ret (Return e)
  | AFnFnApp call => inner <- call ;; inner ;; ret Next
  (* Lists. *)
  | AList calls =>
    e <- (fix loop (calls : list Action) : M (option error) :=
            match calls with
            | [] => ret None
            | uncast :: rest =>
              f <- exec_item uncast ;;
              match f with
              | Return e => ret e
              | Next => loop rest
              end
            end) calls ;;
    ret (check e)
  | AMap calls =>
    errs <- (fix range (calls : list (string * Action)) (errs : Errors.t)
               : M Errors.t :=
               match calls with
               | [] => ret errs
               | (name, recall) :: rest =>
                 f <- exec_item recall ;;        (* e := Exec(recall)(app) *)
                 match f with
                 | Return (Some e) =>
                   format <- gets (fun w => Pkg.FmtErrExec (pkg w)) ;;
                   range rest
                     (Errors.Append errs
                        [fmt_Errorf format [str_operand name; err_operand e]])
                 | _ => range rest errs
                 end
               end) calls [] ;;
    if Errors.IsError errs then ret (check (Some (Errors.ToError errs)))
    else ret Next
  (* String as label could be used for tests. *)
  | AString s => Pack (plain (ret s) (fun s => Some (gtk_NewLabel s))) ;; ret Next
  | AFnString call => Pack (plain call (fun s => Some (gtk_NewLabel s))) ;; ret Next
  | AFnAppString call => Pack (plain call (fun s => Some (gtk_NewLabel s))) ;; ret Next
  | AOther v =>
    format <- gets (fun w => Pkg.FmtErrTypeUnknown (pkg w)) ;;
    ret (check (Some (fmt_Errorf format [v])))
  end.

(** [func Exec(calls ...interface{}) func(app *App) error] *)
Fixpoint Exec (calls : list Action) : M (option error) :=
  match calls with
  | [] => ret None
  | uncast :: rest =>
    f <- exec_item uncast ;;
    match f with
    | Return e => ret e
    | Next => Exec rest
    end
  end.

(** The loop over a map in [Exec]: each entry is run by an [Exec] of its
    own, and a non-nil result is wrapped with the entry's name. *)
Fixpoint range_map (calls : list (string * Action)) (errs : Errors.t)
  : M Errors.t :=
  match calls with
  | [] => ret errs
  | (name, recall) :: rest =>
    e <- Exec [recall] ;;
    match e with
    | Some e =>
      format <- gets (fun w => Pkg.FmtErrExec (pkg w)) ;;
      range_map rest
        (Errors.Append errs [fmt_Errorf format [str_operand name; err_operand e]])
    | None => range_map rest errs
    end
  end.

(** ** Exit *)

(** [func (app *App) Exit(exitCode int) { app.exitCode = exitCode; app.App.Quit() }] *)
Definition App_Exit (code : Z) : M unit :=
  modify (with_app (set_exitCode code)) ;;
  app_call Quit.

(** [func (app *App) ExitCode() int { return app.exitCode }] *)
Definition ExitCode : M Z := gets (fun w => exitCode (app w)).

(** [func Exit(exitCode int) Action]: a [func(app *App)]. *)
Definition Exit (code : Z) : Action := AFnApp (App_Exit code).

(** [func Println(args ...interface{}) func()], for string operands:
    [fmt.Println] puts a space between operands and a newline behind. *)
Definition Println (args : list string) : Action :=
  AFn (fmt_Print (strings_Join args " " ++ String "010" "")).

(** ** What the package takes from its surroundings

    [packageName] asks the Go run time for the file of a caller and takes
    the path apart with package [path/filepath]; [Run] hands control to
    the toolkit, which raises the signals and gives an exit status. *)
Record Env : Type := mkEnv {
  runtime_Caller : nat -> string;            (* the file, [skip] frames up *)
  filepath_Dir : string -> string;
  filepath_Split : string -> string * string;
  filepath_Base : string -> string;
  gtk_status : Z;                            (* the result of Application.Run *)
  gtk_activations : nat                      (* how often it raises activate *)
}.

(** [func packageName() (repo, packag string)] *)
Definition packageName (env : Env) : string * string :=
  let path := runtime_Caller env 3 in
  let (repo, packag) := filepath_Split env (filepath_Dir env path) in
  let (repo, packag) :=
    if (repo =? "gtkelp") && (packag =? "gtkest") then
      let path := runtime_Caller env 4 in
      filepath_Split env (filepath_Dir env path)
    else (repo, packag) in
  (filepath_Base env repo, packag).

(** [func firstNonEmpty(list ...string) string] *)
Fixpoint firstNonEmpty (list : list string) : string :=
  match list with
  | [] => ""
  | str :: rest => if negb (str =? "") then str else firstNonEmpty rest
  end.

(** ** [Init] and [Run] *)

(** The callback slots of [App]. *)
Record Callbacks : Type := mkCallbacks {
  OnInit : option (M unit);     (* func(app *gtk.Application), or nil *)
  OnRun : option Action;        (* interface{}, or nil *)
  OnStop : option (M unit)      (* func(app *gtk.Application), or nil *)
}.

(** What [Init] connected to the signals of the application.  The handler
    of activate assigns the variable [e] of [Run]; it yields that value. *)
Record Handlers : Type := mkHandlers {
  on_startup : option (M unit);
  on_activate : M (option error);
  on_shutdown : option (M unit)
}.

(** [func (app *App) Init(call func(app *gtk.Application))] *)
Definition Init (env : Env) (cb : Callbacks) (call : M (option error))
  : M Handlers :=
  a <- gets app ;;
  when (GuessName a)
    (let (repo, packag) := packageName env in
     a <- gets app ;;
     g <- gets pkg ;;
     when (ID a =? "")
       (modify (with_app (set_ID
          (fmt_Sprintf (firstNonEmpty [FmtID a; Pkg.FmtID g])
                       [str_operand repo; str_operand packag])))) ;;
     a <- gets app ;;
     g <- gets pkg ;;
     when (Title a =? "")
       (modify (with_app (set_FmtTitle
          (fmt_Sprintf (firstNonEmpty [FmtTitle a; Pkg.FmtTitle g])
                       [str_operand repo; str_operand packag]))))) ;;
  a <- gets app ;;
  app_call (NewApplication (ID a) (Flags a)) ;;
  modify (with_app (set_GtkApp true)) ;;
  (* Registered in their execution order to show how they are called. *)
  when (is_Some (OnInit cb)) (app_call (Connect "startup")) ;;
  app_call (Connect "activate") ;;
  when (is_Some (OnStop cb)) (app_call (Connect "shutdown")) ;;
  ret (mkHandlers (OnInit cb) call (OnStop cb)).

Definition emit (h : option (M unit)) : M unit :=
  match h with
  | Some f => f
  | None => ret tt
  end.

Fixpoint emit_activate (n : nat) (h : M (option error)) (e : option error)
  : M (option error) :=
  match n with
  | O => ret e
  | S k => e' <- h ;; emit_activate k h e'
  end.

(** [app.App.Run(app.Args)] of the toolkit: startup, then activate as often
    as the surroundings say, then shutdown, each to the connected handler;
    the result is the toolkit's exit status. *)
Definition gtk_Application_Run (env : Env) (h : Handlers) (args : list string)
  (e : option error) : M (Z * option error) :=
  app_call (ApplicationRun args) ;;
  emit (on_startup h) ;;
  e <- emit_activate (gtk_activations env) (on_activate h) e ;;
  emit (on_shutdown h) ;;
  ret (gtk_status env, e).

(** [func (app *App) Run(calls ...interface{}) int] *)
Definition Run (env : Env) (cb : Callbacks) (calls : list Action) : M Z :=
  let calls :=
    match OnRun cb with
    | Some onRun => onRun :: calls
    | None => calls
    end in
  let e : option error := None in
  h <- Init env cb (Exec calls) ;;
  args <- gets (fun w => Args (app w)) ;;
  r <- gtk_Application_Run env h args e ;;
  let (exitGtk, e) := r in
  match e with
  | Some e =>
    format <- gets (fun w => Pkg.FmtErrRun (pkg w)) ;;
    fmt_Print (fmt_Sprintf (format ++ String "010" "") [err_operand e]) ;;
    ret 1%Z
  | None =>
    code <- ExitCode ;;
    if negb (code =? 0)%Z then ExitCode else ret exitGtk
  end.

(** ** Actions that leave the windows alone

    What [Pack] does depends on [Headless], on [Win] and on the windows made
    so far.  A closure of the caller may well write them (a [Param] such as
    [SetHeadless] is an action too); the statements about windows are about
    runs whose closures do not. *)
Definition gui (w : World) : bool * option nat * list WinCall :=
  (Headless (app w), Win (app w), windows w).

Definition keeps_gui {A : Type} (call : M A) : Prop :=
  forall w, gui (snd (call w)) = gui w.

Inductive gui_safe : Action -> Prop :=
| gs_FnWidget call : keeps_gui call -> gui_safe (AFnWidget call)
| gs_FnAppWidget call : keeps_gui call -> gui_safe (AFnAppWidget call)
| gs_FnWidgetErr call : keeps_gui call -> gui_safe (AFnWidgetErr call)
| gs_FnAppWidgetErr call : keeps_gui call -> gui_safe (AFnAppWidgetErr call)
| gs_Chan recv : keeps_gui recv -> gui_safe (AChan recv)
| gs_FnAppWidgetErrors call : keeps_gui call -> gui_safe (AFnAppWidgetErrors call)
| gs_Fn call : keeps_gui call -> gui_safe (AFn call)
| gs_FnErr call : keeps_gui call -> gui_safe (AFnErr call)
| gs_Param call : keeps_gui call -> gui_safe (AParam call)
| gs_FnApp call : keeps_gui call -> gui_safe (AFnApp call)
| gs_FnAppErr call : keeps_gui call -> gui_safe (AFnAppErr call)
| gs_FnFnApp call :
    keeps_gui call -> (forall w, keeps_gui (fst (call w))) ->
    gui_safe (AFnFnApp call)
| gs_List calls : Forall gui_safe calls -> gui_safe (AList calls)
| gs_Map calls :
    Forall (fun entry => gui_safe (snd entry)) calls -> gui_safe (AMap calls)
| gs_String s : gui_safe (AString s)
| gs_FnString call : keeps_gui call -> gui_safe (AFnString call)
| gs_FnAppString call : keeps_gui call -> gui_safe (AFnAppString call)
| gs_Other v : gui_safe (AOther v).

(** ** The outcome of every entry of a map

    [run_entries] runs each entry by an [Exec] of its own, whatever the
    entries before it returned, and lists what each one returned.  It
    writes down what the loop over a map is meant to do; [range_map] above
    is what the source does. *)
Fixpoint run_entries (calls : list (string * Action))
  : M (list (string * option error)) :=
  match calls with
  | [] => ret []
  | (name, recall) :: rest =>
    e <- Exec [recall] ;;
    outcomes <- run_entries rest ;;
    ret ((name, e) :: outcomes)
  end.

Definition succeeded (calls : list (string * Action))
  : list (string * option error) :=
  map (fun entry => (fst entry, @None error)) calls.

(** ** Sample surroundings and programs, for the examples below *)

Definition env_sample (status : Z) : Env :=
  mkEnv (fun _ => "/go/src/gtkool4/grun/grun_test.go")
        (fun _ => "/go/src/gtkool4/grun")
        (fun _ => ("/go/src/gtkool4/", "grun"))
        (fun _ => "gtkool4")
        status 1.

Definition no_callbacks : Callbacks := mkCallbacks None None None.

Definition World_headless : World :=
  with_app (fun a => mkApp (ID a) (Title a) (Width a) (Height a) (Args a)
                           (Flags a) true (GuessName a) (FmtID a) (FmtTitle a)
                           (GtkApp a) (Win a) (exitCode a)) World_zero.

Definition World_guess : World :=
  with_app (fun a => mkApp (ID a) (Title a) (Width a) (Height a) (Args a)
                           (Flags a) (Headless a) true (FmtID a) (FmtTitle a)
                           (GtkApp a) (Win a) (exitCode a)) World_zero.


(** [func() error { return nil }] and [func() error { return errors.New(msg) }] *)
Definition no_error : Action := AFnErr (ret None).
Definition fails (msg : string) : Action := AFnErr (ret (Some (errors_New msg))).

(** [func(app *App) (gtk.Widgetter, Errors)] returning no widget and one error. *)
Definition builder_fails (msg : string) : Action :=
  AFnAppWidgetErrors (ret (None, [errors_New msg])).

(** ** Vocabulary of the statements *)

Definition newline : string := String "010" "".

Definition compound (a : Action) : bool :=
  match a with
  | AList _ | AMap _ => true
  | _ => false
  end.

(** [Pack] only calls the builder when the application is headless or
    holds a window. *)
Definition blocked (w : World) : bool :=
  Headless (app w) || is_Some (Win (app w)).

(** The state [Pack] calls the builder in when it is not [blocked]. *)
Definition opened (w : World) : World := snd (open_window w).

(** How the windows may differ between two states of a run: not at all
    when [Pack] was blocked to begin with; otherwise every window made in
    between was closed again, but for the one that is held in the end,
    which got its child and was shown, once, by the last two calls. *)
Definition one_window (w w' : World) : Prop :=
  if blocked w then gui w' = gui w
  else
    Headless (app w') = false /\
    match Win (app w') with
    | None =>
      shown w' = shown w /\
      (created w' + closed w = created w + closed w')%nat
    | Some win =>
      shown w' = S (shown w) /\
      (created w' + closed w = S (created w + closed w'))%nat /\
      exists before child,
        windows w' = (before ++ [SetChild win child; Show win])%list
    end.



(** ** Params (grun.go, sections DEFAULTS APP INFO, SET PARAMS and PARAMS)

    [type Param func(app *App)].  A Param is called with the whole [App],
    callback slots included, and, being a closure, may reach the rest of
    the [World] too. *)
Record Decl : Type := mkDecl {
  decl_cb : Callbacks;     (* the callback slots of the App *)
  decl_world : World       (* its other fields, and all a closure reaches *)
}.

Definition Param : Type := Decl -> Decl.

Definition set_Title (s : string) (a : App) : App :=
  mkApp (ID a) s (Width a) (Height a) (Args a) (Flags a) (Headless a)
        (GuessName a) (FmtID a) (FmtTitle a) (GtkApp a) (Win a) (exitCode a).

Definition set_Size (w h : Z) (a : App) : App :=
  mkApp (ID a) (Title a) w h (Args a) (Flags a) (Headless a)
        (GuessName a) (FmtID a) (FmtTitle a) (GtkApp a) (Win a) (exitCode a).

Definition set_Args (l : list string) (a : App) : App :=
  mkApp (ID a) (Title a) (Width a) (Height a) l (Flags a) (Headless a)
        (GuessName a) (FmtID a) (FmtTitle a) (GtkApp a) (Win a) (exitCode a).

Definition set_Flags (f : Z) (a : App) : App :=
  mkApp (ID a) (Title a) (Width a) (Height a) (Args a) f (Headless a)
        (GuessName a) (FmtID a) (FmtTitle a) (GtkApp a) (Win a) (exitCode a).

Definition set_Headless (b : bool) (a : App) : App :=
  mkApp (ID a) (Title a) (Width a) (Height a) (Args a) (Flags a) b
        (GuessName a) (FmtID a) (FmtTitle a) (GtkApp a) (Win a) (exitCode a).

Definition set_GuessName (b : bool) (a : App) : App :=
  mkApp (ID a) (Title a) (Width a) (Height a) (Args a) (Flags a) (Headless a)
        b (FmtID a) (FmtTitle a) (GtkApp a) (Win a) (exitCode a).


(** A Param that writes fields of the App other than the callback slots. *)
Definition on_fields (f : App -> App) : Param :=
  fun d => mkDecl (decl_cb d) (with_app f (decl_world d)).

(** [func SetHeadless() Param] *)
Definition SetHeadless : Param := on_fields (set_Headless true).

(** [func SetSize(w, h int) Param] *)
Definition SetSize (w h : Z) : Param := on_fields (set_Size w h).

(** [func SetTitle(str string) Param] *)
Definition SetTitle_ (str : string) : Param := on_fields (set_Title str).

(** [func SetFmtTitle(str string) Param] *)
Definition SetFmtTitle (str : string) : Param :=
  on_fields (fun a => set_GuessName true (set_FmtTitle str a)).

(** [func SetFmtTitleTest() Param]: the package variable is read when the
    Param is called. *)
Definition SetFmtTitleTest : Param :=
  fun d => SetFmtTitle (Pkg.FmtTitleTest (pkg (decl_world d))) d.

(** [func SetGuessName() Param] *)
Definition SetGuessName : Param := on_fields (set_GuessName true).

(** [func SetOnInit(call func(app *gtk.Application)) Param] *)
Definition SetOnInit (call : option (M unit)) : Param :=
  fun d => mkDecl (mkCallbacks call (OnRun (decl_cb d)) (OnStop (decl_cb d)))
                  (decl_world d).

(** [func SetOnRun(call ...interface{}) Param] *)
Definition SetOnRun (call : list Action) : Param :=
  if (Datatypes.length call =? 0)%nat then fun d => d
  else fun d =>
         mkDecl (mkCallbacks (OnInit (decl_cb d)) (Some (AList call))
                             (OnStop (decl_cb d)))
                (decl_world d).

(** [func SetOnStop(call func(app *gtk.Application)) Param] *)
Definition SetOnStop (call : option (M unit)) : Param :=
  fun d => mkDecl (mkCallbacks (OnInit (decl_cb d)) (OnRun (decl_cb d)) call)
                  (decl_world d).

(** [func SetID(str string) Param] *)
Definition SetID (str : string) : Param := on_fields (set_ID str).

(** [func SetArgs(args ...string) Param] *)
Definition SetArgs (args : list string) : Param := on_fields (set_Args args).


(** [func SetFlagNonUnique() Param]: [app.Flags |= gio.ApplicationNonUnique].
    The value of the toolkit's constant is an argument of the model. *)
Definition SetFlagNonUnique (gio_ApplicationNonUnique : Z) : Param :=
  on_fields (fun a => set_Flags (Z.lor (Flags a) gio_ApplicationNonUnique) a).

(** [func (app *App) Set(calls ...Param) *App] *)
Fixpoint App_Set (calls : list Param) (d : Decl) : Decl :=
  match calls with
  | [] => d
  | call :: rest => App_Set rest (call d)
  end.

(** [func Set(calls ...Param) func(app *App)] *)
Definition Set_ (calls : list Param) : Param := fun d => App_Set calls d.

(** [&App{}] and [&App{Width: w, Height: h}]: a new App takes the place of
    the one in the [World]. *)
Definition fresh (a : App) (w : World) : Decl :=
  mkDecl no_callbacks (with_app (fun _ => a) w).

(** [func New(params ...Param) *App] *)
Definition New (params : list Param) (w : World) : Decl :=
  App_Set params (fresh App_zero w).

(** [func NewSized(w, h int, params ...Param) *App] *)
Definition NewSized (width height : Z) (params : list Param) (w : World)
  : Decl :=
  App_Set params (fresh (set_Size width height App_zero) w).

(** [NewTiny], [NewSmall], [NewMedium], [NewLarge] *)
Definition NewTiny (params : list Param) : World -> Decl :=
  NewSized 400 200 params.
Definition NewSmall (params : list Param) : World -> Decl :=
  NewSized 600 400 params.
Definition NewMedium (params : list Param) : World -> Decl :=
  NewSized 800 600 params.
Definition NewLarge (params : list Param) : World -> Decl :=
  NewSized 1000 800 params.


(** A Param among the actions of [Exec] ([case Param: call(app)]), for an
    App whose callback slots are [cb].  What the Param writes to the slots
    is not read again by the run in progress. *)
Definition Param_action (cb : Callbacks) (p : Param) : Action :=
  AParam (fun w => (tt, decl_world (p (mkDecl cb w)))).

(** ** [Errors.Widget] *)

(** An [Errors] list as an operand of [fmt]: it prints as its [Error]. *)
Definition Errors_operand (e : Errors.t) : operand :=
  Operand "grun.Errors" (Errors.Error e) true.

(** [func (e Errors) Widget(b ...gtk.Widgetter) gtk.Widgetter], for the
    values [g] of the package variables. *)
Definition Errors_Widget (g : Pkg.vars) (e : Errors.t)
  (b : list (option Widget)) : option Widget :=
  if Errors.IsError e then
    Some (gtk_NewLabel (fmt_Sprintf (Pkg.FmtErrLabel g) [Errors_operand e]))
  else
    match b with
    | Some w :: _ => Some w
    | _ => Some (gtk_NewLabel (Pkg.TxtErrNoWidget g))
    end.

(** ** [filepath.Split] where the separator is the slash

    The path is cut behind its last slash; without a slash the directory
    is empty. *)
Fixpoint unix_Split (path : string) : string * string :=
  match path with
  | EmptyString => ("", "")
  | String c rest =>
    let (dir, file) := unix_Split rest in
    if negb (dir =? "") then (String c dir, file)
    else if Ascii.eqb c "/"%char then ("/", file)
    else ("", String c file)
  end.

(** Surroundings in which the caller's directory is that of the test
    package [packageName] looks for. *)
Definition env_gtkest : Env :=
  mkEnv (fun _ => "gtkelp/gtkest/gtkest.go")
        (fun _ => "gtkelp/gtkest")
        unix_Split
        (fun repo => repo)
        0 1.

(** ** More vocabulary of the statements *)

(** Every action of the list ends its turn at the end of the loop body:
    none returns, with an error or without. *)
Fixpoint runs_through (calls : list Action) (w : World) : Prop :=
  match calls with
  | [] => True
  | uncast :: rest =>
    fst (exec_item uncast w) = Next /\
    runs_through rest (snd (exec_item uncast w))
  end.

(** A list wrapped into [depth] lists of one element. *)
Fixpoint nest (depth : nat) (calls : list Action) : list Action :=
  match depth with
  | O => calls
  | S n => [AList (nest n calls)]
  end.

(** The calls [NewWindow] makes on the window it created. *)
Definition setup_calls (a : App) (win : nat) : list WinCall :=
  ((if negb (Title a =? "") then [SetTitle win (Title a)] else [])
   ++ (if (0 <? Width a)%Z && (0 <? Height a)%Z
       then [SetDefaultSize win (Width a) (Height a)] else []))%list.


(** All of the [World] but [Win] and the calls on windows. *)
Definition outside_windows (w : World)
  : App * Pkg.vars * list AppCall * list string * list (string * Z) :=
  (set_Win None (app w), pkg w, application w, stdout w, heap w).

Definition keeps_rest {A : Type} (call : M A) : Prop :=
  forall w, outside_windows (snd (call w)) = outside_windows w.

(** Actions whose closures write nothing but [Win] and the windows. *)
Inductive quiet : Action -> Prop :=
| q_FnWidget call : keeps_rest call -> quiet (AFnWidget call)
| q_FnAppWidget call : keeps_rest call -> quiet (AFnAppWidget call)
| q_FnWidgetErr call : keeps_rest call -> quiet (AFnWidgetErr call)
| q_FnAppWidgetErr call : keeps_rest call -> quiet (AFnAppWidgetErr call)
| q_Chan recv : keeps_rest recv -> quiet (AChan recv)
| q_FnAppWidgetErrors call : keeps_rest call -> quiet (AFnAppWidgetErrors call)
| q_Fn call : keeps_rest call -> quiet (AFn call)
| q_FnErr call : keeps_rest call -> quiet (AFnErr call)
| q_Param call : keeps_rest call -> quiet (AParam call)
| q_FnApp call : keeps_rest call -> quiet (AFnApp call)
| q_FnAppErr call : keeps_rest call -> quiet (AFnAppErr call)
| q_FnFnApp call :
    keeps_rest call -> (forall w, keeps_rest (fst (call w))) ->
    quiet (AFnFnApp call)
| q_List calls : Forall quiet calls -> quiet (AList calls)
| q_Map calls :
    Forall (fun entry => quiet (snd entry)) calls -> quiet (AMap calls)
| q_String s : quiet (AString s)
| q_FnString call : keeps_rest call -> quiet (AFnString call)
| q_FnAppString call : keeps_rest call -> quiet (AFnAppString call)
| q_Other v : quiet (AOther v).

(** The state in which the toolkit raises activate for the first time:
    [Init] is done, the run of the application is under way and the
    handler of startup, if any, has returned. *)
Definition started (env : Env) (cb : Callbacks) (w : World) : World :=
  let w1 := snd (Init env cb (ret None) w) in
  snd (emit (OnInit cb)
         (snd (app_call (ApplicationRun (Args (app w1))) w1))).

(** A Param that leaves [Width] and [Height] as they are. *)
Definition keeps_size (p : Param) : Prop :=
  forall d,
    Width (app (decl_world (p d))) = Width (app (decl_world d)) /\
    Height (app (decl_world (p d))) = Height (app (decl_world d)).

(** * Theorems *)

(** ** State passing: equations *)

Lemma bind_eq : forall (A B : Type) (m : M A) (k : A -> M B) w,
  bind m k w = k (fst (m w)) (snd (m w)).
Proof. intros. unfold bind. destruct (m w); reflexivity. Qed.

Ltac run :=
  repeat (rewrite bind_eq || unfold ret, gets, modify, when; simpl).

(** ** [Exec] and the loops inside [exec_item] *)

Lemma exec_item_AList : forall calls w,
  exec_item (AList calls) w = (e <- Exec calls ;; ret (check e)) w.
Proof. reflexivity. Qed.

Lemma Exec_single : forall a w,
  Exec [a] w =
  (match fst (exec_item a w) with Return e => e | Next => None end,
   snd (exec_item a w)).
Proof.
  intros. simpl. rewrite bind_eq.
  destruct (fst (exec_item a w)); reflexivity.
Qed.

Lemma range_fix : forall calls errs w,
  (fix range (calls : list (string * Action)) (errs : Errors.t)
     : M Errors.t :=
     match calls with
     | [] => ret errs
     | (name, recall) :: rest =>
       f <- exec_item recall ;;
       match f with
       | Return (Some e) =>
         format <- gets (fun w => Pkg.FmtErrExec (pkg w)) ;;
         range rest
           (Errors.Append errs
              [fmt_Errorf format [str_operand name; err_operand e]])
       | _ => range rest errs
       end
     end) calls errs w = range_map calls errs w.
Proof.
  induction calls as [|[name recall] rest IH]; intros errs w.
  - reflexivity.
  - cbn [range_map]. rewrite !bind_eq, Exec_single. cbn [fst snd].
    destruct (fst (exec_item recall w)) as [[e|]|]; rewrite ?bind_eq; apply IH.
Qed.

Lemma exec_item_AMap : forall calls w,
  exec_item (AMap calls) w =
  (errs <- range_map calls [] ;;
   if Errors.IsError errs then ret (check (Some (Errors.ToError errs)))
   else ret Next) w.
Proof.
  intros calls w. cbn [exec_item]. unfold bind at 1.
  rewrite range_fix. reflexivity.
Qed.

(** ** Strings *)

Lemma append_nil_r : forall s : string, s ++ "" = s.
Proof. induction s as [|c s IH]; simpl; [reflexivity | now rewrite IH]. Qed.

Lemma append_assoc : forall s1 s2 s3 : string,
  (s1 ++ s2) ++ s3 = s1 ++ (s2 ++ s3).
Proof. induction s1 as [|c s1 IH]; intros; simpl; [reflexivity | now rewrite IH]. Qed.

Lemma join_rest_concat : forall sep s rest,
  join_rest sep (s :: rest) = sep ++ String.concat sep (s :: rest).
Proof.
  intros sep s rest. revert s.
  induction rest as [|s' rest IH]; intros s.
  - simpl. now rewrite append_nil_r.
  - change (join_rest sep (s :: s' :: rest))
      with (sep ++ s ++ join_rest sep (s' :: rest)).
    rewrite IH. reflexivity.
Qed.

Lemma strings_Join_concat : forall elems sep,
  strings_Join elems sep = String.concat sep elems.
Proof.
  intros [|s [|s' rest]] sep; try reflexivity.
  unfold strings_Join. rewrite join_rest_concat. reflexivity.
Qed.

Lemma join_rest_snoc : forall sep elems s,
  join_rest sep (elems ++ [s])%list = join_rest sep elems ++ sep ++ s.
Proof.
  induction elems as [|x elems IH]; intros s; simpl.
  - now rewrite append_nil_r.
  - rewrite IH, !append_assoc. reflexivity.
Qed.

Lemma strings_Join_snoc : forall sep x elems s,
  strings_Join ((x :: elems) ++ [s])%list sep
  = strings_Join (x :: elems) sep ++ sep ++ s.
Proof.
  intros sep x elems s. destruct elems as [|y elems].
  - simpl. now rewrite append_nil_r.
  - change (strings_Join ((x :: y :: elems) ++ [s])%list sep)
      with (x ++ join_rest sep ((y :: elems) ++ [s])%list).
    change (strings_Join (x :: y :: elems) sep)
      with (x ++ join_rest sep (y :: elems)).
    rewrite join_rest_snoc, append_assoc. reflexivity.
Qed.

(** ** The [Errors] list *)

(** C8.  The empty [Errors] list is no error and has the empty message; a
    list with at least one element is an error whose message is the
    messages of its elements, in their order, joined by newlines; an error
    appended goes behind the ones already there; and one error appended to
    the empty list and converted by [ToError] gives an error with exactly
    that error's message. *)
Theorem Errors_aggregate :
  (Errors.IsError [] = false /\ Errors.Error [] = "") /\
  (forall e l,
     Errors.IsError (e :: l) = true /\
     Errors.Error (e :: l) = String.concat newline (map Error (e :: l))) /\
  (forall l e,
     Errors.Error (Errors.Append l [e]) =
     match l with
     | [] => Error e
     | _ => Errors.Error l ++ newline ++ Error e
     end) /\
  (forall e, Error (Errors.ToError (Errors.Append [] [e])) = Error e).
Proof.
  repeat split.
  - unfold Errors.Error. cbn [Datatypes.length Nat.eqb].
    apply strings_Join_concat.
  - intros l e. destruct l as [|x l]; [reflexivity|].
    unfold Errors.Error, Errors.Append.
    rewrite map_app. cbn [map].
    apply (strings_Join_snoc newline (Error x) (map Error l) (Error e)).
Qed.

(** ** [Init] *)

(** [Init] never assigns [Title]. *)
Lemma Init_keeps_Title : forall env cb call w,
  Title (app (snd (Init env cb call w))) = Title (app w).
Proof.
  intros. unfold Init. run.
  destruct (GuessName (app w)); run; [|destruct (OnInit cb), (OnStop cb); reflexivity].
  destruct (packageName env) as [repo packag]. run.
  destruct (ID (app w) =? ""); run;
    destruct (Title (app w) =? ""); run;
    destruct (OnInit cb), (OnStop cb); reflexivity.
Qed.


(** C4.  With [GuessName] set and [ID] and [Title] empty, [Init] fills [ID]
    from the format for identifiers and the guessed names, and it writes
    the formatted title into [FmtTitle]: [Title] is still empty when [Init]
    is done. *)
Theorem Init_guess_leaves_Title_empty : forall env cb call,
  let w' := snd (Init env cb call World_guess) in
  let names := [str_operand (fst (packageName env));
                str_operand (snd (packageName env))] in
  ID (app w') = fmt_Sprintf "com.github.gtkool4.default.%s.%s" names /\
  Title (app w') = "" /\
  FmtTitle (app w') = fmt_Sprintf "%s/%s" names.
Proof.
  intros env cb call. cbv zeta. unfold Init. run.
  destruct (packageName env) as [repo packag]. run.
  destruct (OnInit cb), (OnStop cb); repeat split.
Qed.

(** ** [Run] *)

(** What [Run] returns, from the state the toolkit hands back: 1 after an
    error of the actions; otherwise the stored exit code unless it is
    zero; otherwise the status of the toolkit. *)
Lemma Run_result : forall env cb calls w,
  let calls' := match OnRun cb with
                | Some onRun => onRun :: calls
                | None => calls
                end in
  let w1 := snd (Init env cb (Exec calls') w) in
  let h := fst (Init env cb (Exec calls') w) in
  let r := gtk_Application_Run env h (Args (app w1)) None w1 in
  fst (Run env cb calls w) =
  match snd (fst r) with
  | Some _ => 1%Z
  | None => if (exitCode (app (snd r)) =? 0)%Z then gtk_status env
            else exitCode (app (snd r))
  end.
Proof.
  intros. unfold Run. fold calls'. rewrite !bind_eq. fold h w1.
  unfold gets at 1 2. cbn [fst snd]. fold r.
  assert (Es : fst (fst r) = gtk_status env).
  { unfold r, gtk_Application_Run. run. reflexivity. }
  destruct (fst r) as [exitGtk [e|]]; cbn [fst snd] in *.
  - run. reflexivity.
  - unfold ExitCode. run. subst exitGtk. unfold r.
    destruct (exitCode _ =? 0)%Z; reflexivity.
Qed.

(** C1.  [Run] looks at the stored exit code before it looks at the status
    of the toolkit, and it takes any stored code that is not zero: with
    [Exit(42)] and a toolkit status of 3 it returns 42, and with [Exit(-1)]
    and a toolkit status of 0 it returns -1.  An action that returns the
    error "stop" makes it print the run format with that message and
    return 1. *)
Theorem Run_takes_stored_code_before_toolkit_status :
  fst (Run (env_sample 3) no_callbacks [Exit 42] World_zero) = 42%Z /\
  fst (Run (env_sample 0) no_callbacks [Exit (-1)] World_zero) = (-1)%Z /\
  fst (Run (env_sample 0) no_callbacks [fails "stop"] World_zero) = 1%Z /\
  stdout (snd (Run (env_sample 0) no_callbacks [fails "stop"] World_zero))
  = ["grun.Run: stop" ++ newline].
Proof. repeat split. Qed.


(** ** [Exec]: branches that return too early or not at all *)

(** The [Errors] branch never returns: the list [errs] it tests is the one
    declared ahead of [Pack], which nothing assigns. *)
Lemma exec_item_Errors_branch_goes_on : forall call w,
  fst (exec_item (AFnAppWidgetErrors call) w) = Next.
Proof. intros. cbn [exec_item]. run. reflexivity. Qed.

(** C2.  A [func(app *App) (gtk.Widgetter, Errors)] that returns the one
    error "boom" does not stop [Exec]: the window made for it is closed,
    the action behind it runs, and [Exec] returns nil. *)
Theorem Exec_goes_on_after_builder_Errors :
  let r := Exec [builder_fails "boom"; Println ["later"]] World_zero in
  fst r = None /\
  stdout (snd r) = ["later" ++ newline] /\
  windows (snd r) = [NewApplicationWindow 0; Close 0].
Proof. repeat split. Qed.

(** The [func() error] branches return whatever the call returned. *)
Lemma exec_item_FnErr_returns : forall call w,
  fst (exec_item (AFnErr call) w) = Return (fst (call w)) /\
  fst (exec_item (AFnAppErr call) w) = Return (fst (call w)).
Proof. intros. cbn [exec_item]. run. split; reflexivity. Qed.

(** C3.  A [func() error] that returns nil ends [Exec]: the action behind
    it is not run, so nothing is printed and the state is the one [Exec]
    started in. *)
Theorem Exec_stops_after_nil_error :
  Exec [no_error; Println ["later"]] World_zero = (None, World_zero) /\
  stdout (snd (Exec [Println ["later"]] World_zero)) = ["later" ++ newline].
Proof. split; reflexivity. Qed.

(** ** Induction on actions, through the lists and maps inside them *)

Lemma Action_nested_ind : forall P : Action -> Prop,
  (forall a, compound a = false -> P a) ->
  (forall calls, Forall P calls -> P (AList calls)) ->
  (forall calls, Forall (fun entry => P (snd entry)) calls -> P (AMap calls)) ->
  forall a, P a.
Proof.
  intros P Hleaf Hlist Hmap. fix IH 1.
  intros a. destruct a; try (apply Hleaf; reflexivity).
  - apply Hlist. revert calls. fix IHl 1.
    intros [|x rest]; constructor; [apply IH | apply IHl].
  - apply Hmap. revert calls. fix IHm 1.
    intros [|[name x] rest]; constructor; [apply IH | apply IHm].
Qed.

(** ** Windows: what [Pack] does *)

Lemma gui_eq : forall w w',
  gui w' = gui w ->
  Headless (app w') = Headless (app w) /\
  Win (app w') = Win (app w) /\
  windows w' = windows w.
Proof. unfold gui. intros w w' H. injection H as H1 H2 H3. auto. Qed.

Lemma gui_blocked : forall w w', gui w' = gui w -> blocked w' = blocked w.
Proof.
  intros w w' H. apply gui_eq in H. destruct H as (H1 & H2 & _).
  unfold blocked. now rewrite H1, H2.
Qed.

Lemma count_snoc : forall (p : WinCall -> bool) l c,
  length (filter p (l ++ [c])%list)
  = (length (filter p l) + if p c then 1 else 0)%nat.
Proof.
  intros. rewrite filter_app, length_app. simpl. destruct (p c); reflexivity.
Qed.

Lemma opened_spec : forall w,
  Headless (app (opened w)) = Headless (app w) /\
  Win (app (opened w)) = Some (created w) /\
  created (opened w) = S (created w) /\
  shown (opened w) = shown w /\
  closed (opened w) = closed w /\
  exists setup,
    windows (opened w)
    = (windows w ++ NewApplicationWindow (created w) :: setup)%list.
Proof.
  intros w. unfold opened, open_window, NewWindow, gtk_NewApplicationWindow.
  unfold created, shown, closed. run.
  destruct (negb (Title (app w) =? ""));
    destruct ((0 <? Width (app w))%Z && (0 <? Height (app w))%Z);
    cbn [when]; run; rewrite ?count_snoc; cbn [is_new_window is_show is_close];
    (repeat split; [lia .. | ]);
    rewrite <- ?app_assoc; cbn [app]; eexists; reflexivity.
Qed.

Lemma Pack_eq : forall X (call : M (option Widget * X)) w,
  Pack call w =
  if blocked w then (snd (fst (call w)), snd (call w))
  else
    (r <- call ;;
     match fst r with
     | None => on_Win Close ;; modify (with_app (set_Win None)) ;; ret (snd r)
     | Some child =>
       on_Win (fun win => SetChild win child) ;; on_Win Show ;; ret (snd r)
     end) (opened w).
Proof.
  intros. unfold Pack, blocked, opened. rewrite bind_eq. unfold gets.
  cbn [fst snd]. destruct (Headless (app w) || is_Some (Win (app w))).
  - rewrite bind_eq. reflexivity.
  - rewrite bind_eq. reflexivity.
Qed.

Lemma Pack_blocked : forall X (call : M (option Widget * X)) w,
  blocked w = true ->
  Pack call w = (snd (fst (call w)), snd (call w)).
Proof. intros X call w Hb. rewrite Pack_eq, Hb. reflexivity. Qed.

Lemma Pack_opened : forall X (call : M (option Widget * X)) w,
  blocked w = false ->
  keeps_gui call ->
  let w' := snd (Pack call w) in
  fst (Pack call w) = snd (fst (call (opened w))) /\
  Headless (app w') = Headless (app w) /\
  match fst (fst (call (opened w))) with
  | None =>
    Win (app w') = None /\
    windows w' = (windows (opened w) ++ [Close (created w)])%list
  | Some child =>
    Win (app w') = Some (created w) /\
    windows w' = (windows (opened w)
                  ++ [SetChild (created w) child; Show (created w)])%list
  end.
Proof.
  intros X call w Hb Hk. cbv zeta.
  destruct (opened_spec w) as (Hh & Hw & _).
  destruct (gui_eq (Hk (opened w))) as (Kh & Kw & Kl).
  rewrite Hw in Kw. rewrite Hh in Kh.
  rewrite Pack_eq, Hb, bind_eq.
  destruct (fst (fst (call (opened w)))) as [child|];
    unfold on_Win; run; rewrite Kw; run; rewrite ?Kw; run; rewrite ?Kl;
    rewrite <- ?app_assoc; auto.
Qed.

(** ** Windows: builders and closures that leave them alone *)

Lemma keeps_gui_plain : forall A (call : M A) (f : A -> option Widget),
  keeps_gui call -> keeps_gui (plain call f).
Proof. intros A call f H w. unfold plain. run. apply H. Qed.

Lemma keeps_gui_ret : forall A (a : A), keeps_gui (ret a).
Proof. intros A a w. reflexivity. Qed.

Lemma keeps_gui_widget_or_error : forall call,
  keeps_gui call -> keeps_gui (widget_or_error call).
Proof.
  intros call H w. unfold widget_or_error. run.
  destruct (snd (fst (call w))); apply H.
Qed.

Lemma keeps_gui_widget_or_errors : forall call,
  keeps_gui call -> keeps_gui (widget_or_errors call).
Proof.
  intros call H w. unfold widget_or_errors. run.
  destruct (Errors.IsError (snd (fst (call w)))); apply H.
Qed.

Create HintDb gui.
#[local] Hint Resolve keeps_gui_plain keeps_gui_ret keeps_gui_widget_or_error
  keeps_gui_widget_or_errors : gui.

(** ** Windows: the relation [one_window] *)

Lemma counts_of_windows : forall w w',
  windows w' = windows w ->
  created w' = created w /\ shown w' = shown w /\ closed w' = closed w.
Proof. unfold created, shown, closed. intros w w' ->. auto. Qed.

Lemma one_window_gui : forall w w', gui w' = gui w -> one_window w w'.
Proof.
  intros w w' H. unfold one_window.
  destruct (blocked w) eqn:Hb; [assumption|].
  destruct (gui_eq H) as (Hh & Hw & Hl).
  destruct (counts_of_windows _ _ Hl) as (Hc & Hs & Hx).
  unfold blocked in Hb. apply orb_false_iff in Hb. destruct Hb as [Hb1 Hb2].
  rewrite Hh, Hw. destruct (Win (app w)); [discriminate|].
  repeat split; congruence || lia.
Qed.

Lemma one_window_refl : forall w, one_window w w.
Proof. intros. now apply one_window_gui. Qed.

Lemma one_window_trans : forall w1 w2 w3,
  one_window w1 w2 -> one_window w2 w3 -> one_window w1 w3.
Proof.
  unfold one_window. intros w1 w2 w3 H12 H23.
  destruct (blocked w1) eqn:Hb1.
  - rewrite (gui_blocked H12), Hb1 in H23. congruence.
  - destruct H12 as [Hh2 H12]. unfold blocked in H23. rewrite Hh2 in H23.
    destruct (Win (app w2)) as [win|] eqn:Ew2; cbn [is_Some orb] in H23.
    + destruct (gui_eq H23) as (Hh & Hw & Hl).
      destruct (counts_of_windows _ _ Hl) as (Hc & Hs & Hx).
      rewrite Hh, Hw, Hl, Ew2. split; [assumption|].
      destruct H12 as (? & ? & ?). repeat split; congruence || lia || assumption.
    + destruct H23 as [Hh3 H23]. split; [assumption|].
      destruct H12 as [? ?].
      destruct (Win (app w3)) as [win|].
      * destruct H23 as (? & ? & ?). repeat split; lia || assumption.
      * destruct H23 as [? ?]. split; lia.
Qed.

Lemma Pack_one_window : forall X (call : M (option Widget * X)) w,
  keeps_gui call -> one_window w (snd (Pack call w)).
Proof.
  intros X call w Hk. destruct (blocked w) eqn:Hb.
  - rewrite Pack_blocked by assumption. apply one_window_gui, Hk.
  - destruct (@Pack_opened X call w Hb Hk) as (_ & Hh & Hm).
    destruct (opened_spec w) as (_ & _ & Oc & Os & Ox & _).
    unfold one_window. rewrite Hb.
    unfold blocked in Hb. apply orb_false_iff in Hb. destruct Hb as [Hb _].
    split; [congruence|].
    unfold created, shown, closed in *.
    destruct (fst (fst (call (opened w)))) as [child|];
      destruct Hm as [-> Hl]; rewrite Hl.
    + change [SetChild (length (filter is_new_window (windows w))) child;
              Show (length (filter is_new_window (windows w)))]
        with ([SetChild (length (filter is_new_window (windows w))) child]
              ++ [Show (length (filter is_new_window (windows w)))])%list.
      rewrite app_assoc, !count_snoc. cbn [is_new_window is_show is_close].
      repeat split; try lia.
      exists (windows (opened w)), child. rewrite <- app_assoc. reflexivity.
    + rewrite !count_snoc. cbn [is_new_window is_show is_close]. split; lia.
Qed.

Lemma exec_item_one_window : forall a,
  gui_safe a -> forall w, one_window w (snd (exec_item a w)).
Proof.
  induction a as [a Hleaf|calls IH|calls IH] using Action_nested_ind;
    intros Hsafe w.
  - destruct a; try discriminate Hleaf; inversion Hsafe; subst;
      cbn [exec_item]; rewrite ?bind_eq; cbn [ret fst snd];
      try (apply Pack_one_window; auto with gui);
      try (apply one_window_gui; auto; fail).
    (* left: func() func(app *App), two calls in a row *)
    match goal with H : forall w, keeps_gui (fst (call w)) |- _ =>
      apply one_window_gui; rewrite (H w (snd (call w))); auto end.
  - rewrite exec_item_AList, bind_eq. cbn [ret snd].
    inversion Hsafe as [| | | | | | | | | | | |calls' Hall| | | | |]; subst.
    clear Hsafe. revert w.
    induction IH as [|x rest Hx _ IHrest]; intros w.
    + apply one_window_refl.
    + inversion Hall; subst. cbn [Exec]. rewrite bind_eq.
      destruct (fst (exec_item x w)).
      * cbn [ret snd]. auto.
      * eapply one_window_trans; [apply Hx; assumption | apply IHrest; assumption].
  - rewrite exec_item_AMap, bind_eq.
    assert (Hr : forall errs, one_window w (snd (range_map calls errs w))).
    { inversion Hsafe as [| | | | | | | | | | | | |calls' Hall| | | |]; subst.
      clear Hsafe. revert w.
      induction IH as [|[name x] rest Hx _ IHrest]; intros w errs.
      - apply one_window_refl.
      - inversion Hall; subst. cbn [range_map].
        rewrite bind_eq, Exec_single. cbn [fst snd] in *.
        eapply one_window_trans; [apply Hx; assumption|].
        destruct (fst (exec_item x w)) as [[e|]|]; rewrite ?bind_eq;
          unfold gets; cbn [fst snd]; apply IHrest; assumption. }
    destruct (Errors.IsError (fst (range_map calls [] w))); apply Hr.
Qed.

Lemma Exec_one_window : forall calls,
  Forall gui_safe calls -> forall w, one_window w (snd (Exec calls w)).
Proof.
  intros calls Hall w.
  pose proof (exec_item_one_window (gs_List Hall) w) as H.
  rewrite exec_item_AList, bind_eq in H. exact H.
Qed.

(** ** Windows: the claims *)

(** C9.  In a headless application [Pack] calls the builder, and what it
    leaves is exactly what the builder left: no window is made.  So
    [Exec], on actions that leave the windows alone, ends with [Headless]
    still set, with [Win] as it was (nil when it was nil) and with the
    same calls on windows as before, however many of the actions build
    widgets. *)
Theorem Headless_makes_no_window :
  forall X (call : M (option Widget * X)) calls w,
    Headless (app w) = true ->
    Forall gui_safe calls ->
    Pack call w = (snd (fst (call w)), snd (call w)) /\
    Headless (app (snd (Exec calls w))) = true /\
    Win (app (snd (Exec calls w))) = Win (app w) /\
    windows (snd (Exec calls w)) = windows w /\
    created (snd (Exec calls w)) = created w.
Proof.
  intros X call calls w Hh Hsafe.
  assert (Hb : blocked w = true) by (unfold blocked; now rewrite Hh).
  split; [now apply Pack_blocked|].
  pose proof (Exec_one_window Hsafe w) as H. unfold one_window in H.
  rewrite Hb in H. destruct (gui_eq H) as (H1 & H2 & H3).
  destruct (counts_of_windows _ _ H3) as (H4 & _).
  repeat split; congruence.
Qed.

Lemma Headless_makes_no_window_witness :
  let build := plain (fmt_Print "built" ;; ret (Some (Label "a"))) (fun x => x) in
  let calls := [AString "a"; AFnWidget (ret (Some (Label "b"))); Exit 0] in
  Headless (app World_headless) = true /\
  Forall gui_safe calls /\
  stdout (snd (Pack build World_headless)) = ["built"] /\
  Win (app (snd (Exec calls World_headless))) = None /\
  windows (snd (Exec calls World_headless)) = [].
Proof.
  intros build calls.
  assert (Hsafe : Forall gui_safe calls).
  { repeat constructor; intros w; reflexivity. }
  destruct (@Headless_makes_no_window unit build calls World_headless
              eq_refl Hsafe) as (Hp & _ & Hw & Hl & _).
  split; [reflexivity|]. split; [exact Hsafe|].
  split; [rewrite Hp; reflexivity|]. split; [exact Hw | exact Hl].
Defined.






(** ** Maps *)

Lemma run_entries_cons : forall name recall rest w,
  run_entries ((name, recall) :: rest) w
  = ((name, fst (Exec [recall] w))
       :: fst (run_entries rest (snd (Exec [recall] w))),
     snd (run_entries rest (snd (Exec [recall] w)))).
Proof.
  intros. cbn [run_entries]. unfold bind.
  destruct (Exec [recall] w) as [e w1]. cbn [fst snd].
  destruct (run_entries rest w1). reflexivity.
Qed.

Lemma run_entries_app : forall before after w,
  snd (run_entries (before ++ after)%list w)
  = snd (run_entries after (snd (run_entries before w))).
Proof.
  induction before as [|[name recall] rest IH]; intros after w.
  - reflexivity.
  - cbn [Datatypes.app]. rewrite !run_entries_cons. cbn [snd]. apply IH.
Qed.

Lemma range_map_app : forall before after errs w,
  range_map (before ++ after)%list errs w
  = range_map after (fst (range_map before errs w))
                    (snd (range_map before errs w)).
Proof.
  induction before as [|[name recall] rest IH]; intros after errs w.
  - reflexivity.
  - cbn [Datatypes.app range_map]. rewrite !bind_eq.
    destruct (fst (Exec [recall] w)); rewrite ?bind_eq; apply IH.
Qed.

(** The loop over a map runs every entry, whatever the entries return. *)
Lemma range_map_world : forall calls errs w,
  snd (range_map calls errs w) = snd (run_entries calls w).
Proof.
  induction calls as [|[name recall] rest IH]; intros errs w.
  - reflexivity.
  - rewrite run_entries_cons. cbn [range_map snd]. rewrite !bind_eq.
    destruct (fst (Exec [recall] w)); rewrite ?bind_eq; apply IH.
Qed.

Lemma Exec_map_world : forall calls w,
  snd (Exec [AMap calls] w) = snd (run_entries calls w).
Proof.
  intros. rewrite Exec_single. cbn [snd].
  rewrite exec_item_AMap, bind_eq.
  destruct (Errors.IsError (fst (range_map calls [] w)));
    cbn [ret snd]; apply range_map_world.
Qed.

(** Entries that all succeed add no error. *)
Lemma range_map_succeeded : forall calls errs w,
  fst (run_entries calls w) = succeeded calls ->
  fst (range_map calls errs w) = errs.
Proof.
  induction calls as [|[name recall] rest IH]; intros errs w H.
  - reflexivity.
  - rewrite run_entries_cons in H. cbn [succeeded map fst] in H.
    cbn [range_map]. rewrite bind_eq.
    destruct (fst (Exec [recall] w)) as [e|]; [discriminate H|].
    injection H as Hrest. now apply IH.
Qed.

Lemma wrap_default : forall name e,
  doPrintf true "grun.Exec(%s): %w" [str_operand name; err_operand e]
  = "grun.Exec(" ++ name ++ "): " ++ Error e.
Proof.
  intros. cbn. rewrite append_nil_r. reflexivity.
Qed.

(** C5.  [Exec] on a map in which one entry returns an error and every
    other entry, before it and behind it in the order of the loop,
    succeeds: the state [Exec] leaves is the one left by running every
    entry in turn, and, with the format for such errors at its initial
    value when the failing entry returns, the result is one error whose
    message is that entry's name and the entry's message in that
    format. *)
Theorem Exec_map_runs_every_entry : forall before name recall after w e,
  let w0 := snd (run_entries before w) in
  let w1 := snd (Exec [recall] w0) in
  fst (run_entries before w) = succeeded before ->
  fst (Exec [recall] w0) = Some e ->
  fst (run_entries after w1) = succeeded after ->
  Pkg.FmtErrExec (pkg w1) = "grun.Exec(%s): %w" ->
  Exec [AMap (before ++ (name, recall) :: after)] w
  = (Some (errors_New ("grun.Exec(" ++ name ++ "): " ++ Error e)),
     snd (run_entries (before ++ (name, recall) :: after) w)) /\
  snd (run_entries (before ++ (name, recall) :: after) w)
  = snd (run_entries after w1).
Proof.
  intros before name recall after w e w0 w1 Hbefore He Hafter Hformat.
  assert (Hworld : snd (run_entries (before ++ (name, recall) :: after) w)
                   = snd (run_entries after w1)).
  { rewrite run_entries_app. fold w0. rewrite run_entries_cons.
    reflexivity. }
  split; [|exact Hworld].
  rewrite <- (Exec_map_world (before ++ (name, recall) :: after) w).
  rewrite Exec_single. cbn [snd]. f_equal.
  rewrite exec_item_AMap, bind_eq, range_map_app.
  rewrite (range_map_succeeded before [] w Hbefore), range_map_world.
  fold w0. cbn [range_map]. rewrite bind_eq, He. fold w1.
  rewrite bind_eq. unfold gets. cbn [fst snd]. rewrite Hformat.
  rewrite range_map_succeeded by exact Hafter.
  cbn [Errors.Append Datatypes.app Errors.IsError Datatypes.length Nat.ltb Nat.leb fst].
  unfold Errors.ToError, Errors.Error, fmt_Errorf.
  cbn [Datatypes.length Nat.eqb map strings_Join Error ret check fst].
  rewrite wrap_default. reflexivity.
Qed.

Lemma Exec_map_runs_every_entry_witness :
  let before := [("a", Println ["a"])] in
  let after := [("c", Println ["c"])] in
  let r := Exec [AMap (before ++ ("b", fails "boom") :: after)] World_zero in
  fst (run_entries before World_zero) = succeeded before /\
  fst r = Some (errors_New "grun.Exec(b): boom") /\
  stdout (snd r) = ["a" ++ newline; "c" ++ newline].
Proof.
  intros before after r.
  destruct (@Exec_map_runs_every_entry before "b" (fails "boom") after
              World_zero (errors_New "boom")
              eq_refl eq_refl eq_refl eq_refl) as [H _].
  split; [reflexivity|]. subst r. rewrite H. split; reflexivity.
Defined.

(** * Further properties of the package *)

(** ** [firstNonEmpty] *)

(** X1.  [firstNonEmpty] returns the empty string exactly when every
    string of the list is empty; otherwise its result stands in the list
    behind empty strings only. *)
Theorem firstNonEmpty_spec : forall l,
  (firstNonEmpty l = "" <-> Forall (fun s => s = "") l) /\
  (firstNonEmpty l <> "" ->
   exists pre post,
     l = (pre ++ firstNonEmpty l :: post)%list /\
     Forall (fun s => s = "") pre).
Proof.
  induction l as [|s l [IHa IHb]]; cbn [firstNonEmpty].
  - split; [split; auto | intros H; now contradiction H].
  - destruct (String.eqb_spec s "") as [->|Hs]; cbn [negb].
    + split.
      * rewrite IHa. split; intros H; [now constructor | now inversion H].
      * intros H. destruct (IHb H) as (pre & post & E & Hpre).
        exists ("" :: pre)%list, post. split; [now rewrite E at 1 | now constructor].
    + split.
      * split; intros H; [contradiction | now inversion H].
      * intros _. exists [], l. split; [reflexivity | constructor].
Qed.

(** ** [packageName] *)

Lemma unix_Split_dir : forall path,
  fst (unix_Split path) = "" \/
  exists d, fst (unix_Split path) = d ++ "/".
Proof.
  induction path as [|c rest IH]; cbn [unix_Split]; [now left|].
  destruct (unix_Split rest) as [dir file]. cbn [fst] in *.
  destruct (String.eqb_spec dir "") as [->|Hd]; cbn [negb].
  - destruct (Ascii.eqb c "/"); cbn [fst]; [right; now exists "" | now left].
  - cbn [fst]. right. destruct IH as [IH|[d IH]]; [contradiction|].
    exists (String c d). now rewrite IH.
Qed.

Lemma not_gtkelp : forall repo,
  repo = "" \/ (exists d, repo = d ++ "/") -> (repo =? "gtkelp") = false.
Proof.
  intros repo [->|[d ->]]; [reflexivity|].
  apply String.eqb_neq. intros H.
  repeat (destruct d as [|? d]; cbn in H; [discriminate H|];
          injection H as _ H).
  destruct d; discriminate H.
Qed.

(** X2.  When [filepath.Split] returns a directory that is empty or ends
    in a slash, as it does, the directory is never "gtkelp":
    [packageName] never looks one caller further, and names the
    repository and the package after the file of the third caller, also
    for a file in gtkelp/gtkest. *)
Theorem packageName_never_retries : forall env,
  (forall path,
     fst (filepath_Split env path) = "" \/
     exists d, fst (filepath_Split env path) = d ++ "/") ->
  let s := filepath_Split env (filepath_Dir env (runtime_Caller env 3)) in
  packageName env = (filepath_Base env (fst s), snd s).
Proof.
  intros env Hsplit s. unfold packageName. fold s.
  specialize (Hsplit (filepath_Dir env (runtime_Caller env 3))). fold s in Hsplit.
  destruct s as [repo packag]. cbn [fst snd] in *.
  rewrite (not_gtkelp Hsplit). reflexivity.
Qed.

Lemma packageName_never_retries_witness :
  (forall path,
     fst (filepath_Split env_gtkest path) = "" \/
     exists d, fst (filepath_Split env_gtkest path) = d ++ "/") /\
  packageName env_gtkest = ("gtkelp/", "gtkest").
Proof.
  split; [exact unix_Split_dir|].
  exact (@packageName_never_retries env_gtkest unix_Split_dir).
Defined.

(** ** The [Errors] list, once more *)

Lemma join_rest_app : forall sep l1 l2,
  join_rest sep (l1 ++ l2)%list = join_rest sep l1 ++ join_rest sep l2.
Proof.
  induction l1 as [|x l1 IH]; intros l2; cbn [Datatypes.app join_rest].
  - reflexivity.
  - rewrite IH, !append_assoc. reflexivity.
Qed.

(** X3.  [Append] keeps what is there and puts the new errors behind it:
    the list is an error afterwards exactly when it was one or an error
    was appended, and its message is the old message, a newline and the
    message of the appended errors (just one of the two when the other
    list is empty). *)
Theorem Errors_Append_spec : forall e more,
  Errors.IsError (Errors.Append e more)
  = Errors.IsError e || Errors.IsError more /\
  Errors.Error (Errors.Append e more) =
  match e, more with
  | [], _ => Errors.Error more
  | _, [] => Errors.Error e
  | _, _ => Errors.Error e ++ newline ++ Errors.Error more
  end.
Proof.
  intros e more. unfold Errors.Append. split.
  - destruct e, more; reflexivity.
  - destruct e as [|x e]; [reflexivity|].
    destruct more as [|y more]; [now rewrite app_nil_r|].
    unfold Errors.Error.
    change (strings_Join (map Error ((x :: e) ++ y :: more)%list) newline
            = strings_Join (map Error (x :: e)) newline ++ newline
              ++ strings_Join (map Error (y :: more)) newline).
    rewrite map_app. cbn [map].
    transitivity (Error x ++ join_rest newline
                    (map Error e ++ Error y :: map Error more)%list).
    { destruct e; reflexivity. }
    rewrite join_rest_app. cbn [join_rest].
    transitivity ((Error x ++ join_rest newline (map Error e)) ++ newline
                  ++ Error y ++ join_rest newline (map Error more)).
    { now rewrite append_assoc. }
    f_equal; [destruct e; cbn; now rewrite ?append_nil_r|].
    f_equal. destruct more; cbn; now rewrite ?append_nil_r.
Qed.

(** X4.  [Errors.Widget] never returns nil.  For a list with errors it is
    a label, under the initial label format the text "errors:" and, on
    the lines below, the messages of the list, whatever widget was
    handed in; for an empty list it is the first widget handed in when
    that one is not nil. *)
Theorem Errors_Widget_spec : forall g e b,
  Errors_Widget g e b <> None /\
  (forall x rest,
     Errors_Widget Pkg.initial (x :: rest) b
     = Some (Label ("errors:" ++ newline ++ Errors.Error (x :: rest)))) /\
  (forall w rest, Errors_Widget g [] (Some w :: rest) = Some w) /\
  (Errors_Widget g [] [] = Some (Label (Pkg.TxtErrNoWidget g))) /\
  (forall rest,
     Errors_Widget g [] (None :: rest) = Some (Label (Pkg.TxtErrNoWidget g))).
Proof.
  intros g e b. split; [|split; [|repeat split]].
  - unfold Errors_Widget. destruct (Errors.IsError e); [discriminate|].
    destruct b as [|[w|] ?]; discriminate.
  - intros x rest. unfold Errors_Widget. cbn [Errors.IsError Datatypes.length Nat.ltb Nat.leb].
    unfold gtk_NewLabel, fmt_Sprintf. cbn. rewrite append_nil_r. reflexivity.
Qed.

(** ** [Exec]: a value of no usable type *)

Lemma Exec_cons : forall a rest w,
  Exec (a :: rest) w =
  match fst (exec_item a w) with
  | Return e => (e, snd (exec_item a w))
  | Next => Exec rest (snd (exec_item a w))
  end.
Proof.
  intros. cbn [Exec]. rewrite bind_eq.
  destruct (fst (exec_item a w)); reflexivity.
Qed.

(** X5.  A value of a type that the switch of [Exec] does not list ends
    [Exec] there: no action behind it runs, the state is the one the
    value was met in, and, with the format at its initial value, the
    error names the type of the value. *)
Theorem Exec_unknown_type_stops : forall before v rest w,
  runs_through before w ->
  let w1 := snd (Exec before w) in
  Pkg.FmtErrTypeUnknown (pkg w1) = "grun exec func type unknown: %T" ->
  Exec (before ++ AOther v :: rest)%list w
  = (Some (errors_New ("grun exec func type unknown: " ++ op_type v)), w1).
Proof.
  induction before as [|a before IH]; intros v rest w Hrun w1 Hf.
  - cbn [Datatypes.app Exec exec_item]. rewrite !bind_eq. unfold gets.
    cbn [fst snd]. cbn in w1. subst w1. rewrite Hf.
    unfold fmt_Errorf. cbn. rewrite append_nil_r. reflexivity.
  - destruct Hrun as [Ha Hrun]. subst w1. cbn [Datatypes.app].
    rewrite (Exec_cons a before), Ha in Hf.
    rewrite (Exec_cons a (before ++ _)), (Exec_cons a before), Ha.
    now apply IH.
Qed.

Lemma Exec_unknown_type_stops_witness :
  runs_through [Println ["a"]] World_zero /\
  Exec ([Println ["a"]] ++ AOther (Operand "int" "3" false) :: [Println ["b"]])%list
       World_zero
  = (Some (errors_New "grun exec func type unknown: int"),
     snd (Exec [Println ["a"]] World_zero)).
Proof.
  assert (Hrun : runs_through [Println ["a"]] World_zero).
  { split; [reflexivity | exact I]. }
  split; [exact Hrun|].
  exact (@Exec_unknown_type_stops [Println ["a"]] (Operand "int" "3" false)
           [Println ["b"]] World_zero Hrun eq_refl).
Defined.

(** ** [Exec]: lists behind lists and lists in lists *)

Lemma runs_through_Exec : forall calls w,
  runs_through calls w -> fst (Exec calls w) = None.
Proof.
  induction calls as [|a calls IH]; intros w H; [reflexivity|].
  destruct H as [Ha H]. rewrite Exec_cons, Ha. now apply IH.
Qed.

Lemma Exec_app_runs : forall first second w,
  runs_through first w ->
  Exec (first ++ second)%list w = Exec second (snd (Exec first w)).
Proof.
  induction first as [|a first IH]; intros second w H; [reflexivity|].
  destruct H as [Ha H]. cbn [Datatypes.app].
  rewrite !Exec_cons, Ha. now apply IH.
Qed.

Lemma Exec_app_stops : forall first second w,
  ~ runs_through first w ->
  Exec (first ++ second)%list w = Exec first w.
Proof.
  induction first as [|a first IH]; intros second w H.
  - now contradiction H.
  - cbn [Datatypes.app runs_through] in *. rewrite !Exec_cons.
    destruct (fst (exec_item a w)) as [e|]; [reflexivity|].
    apply IH. tauto.
Qed.

(** X6.  [Exec] on two lists in a row: when every action of the first
    list ends its turn without returning, the second list runs on the
    state the first one leaves; when an action of the first list
    returns, with an error or without, nothing of the second list
    runs. *)
Theorem Exec_app : forall first second w,
  (runs_through first w ->
   Exec (first ++ second)%list w = Exec second (snd (Exec first w))) /\
  (~ runs_through first w ->
   Exec (first ++ second)%list w = Exec first w).
Proof.
  intros first second w. split.
  - apply Exec_app_runs.
  - apply Exec_app_stops.
Qed.

Lemma Exec_app_witness :
  runs_through [Println ["a"]] World_zero /\
  ~ runs_through [no_error] World_zero /\
  stdout (snd (Exec ([Println ["a"]] ++ [Println ["b"]])%list World_zero))
  = ["a" ++ newline; "b" ++ newline] /\
  Exec ([no_error] ++ [Println ["b"]])%list World_zero = (None, World_zero).
Proof.
  assert (H1 : runs_through [Println ["a"]] World_zero).
  { split; [reflexivity | exact I]. }
  assert (H2 : ~ runs_through [no_error] World_zero).
  { intros [H _]. discriminate H. }
  split; [exact H1|]. split; [exact H2|]. split.
  - rewrite (proj1 (Exec_app [Println ["a"]] [Println ["b"]] World_zero) H1).
    reflexivity.
  - rewrite (proj2 (Exec_app [no_error] [Println ["b"]] World_zero) H2).
    reflexivity.
Defined.

Lemma Exec_AList : forall calls w, Exec [AList calls] w = Exec calls w.
Proof.
  intros. rewrite Exec_single, exec_item_AList, bind_eq. cbn [ret fst snd].
  destruct (Exec calls w) as [[e|] w1]; reflexivity.
Qed.

(** X7.  A list of actions wrapped into lists of one element, however
    deep, gives the result and the state of the list itself. *)
Theorem Exec_nest : forall depth calls w,
  Exec (nest depth calls) w = Exec calls w.
Proof.
  induction depth as [|n IH]; intros calls w; cbn [nest].
  - reflexivity.
  - rewrite Exec_AList. apply IH.
Qed.

(** X8.  A list inside a list of actions may be spliced into it when its
    actions all end their turn, or when it ends with an error.  (A list
    that a [func() error] ends with nil is another matter: the actions
    behind the inner list still run, the ones behind the spliced
    actions do not.) *)
Theorem Exec_flatten : forall inner rest w,
  runs_through inner w \/ fst (Exec inner w) <> None ->
  Exec (AList inner :: rest) w = Exec (inner ++ rest)%list w.
Proof.
  intros inner rest w H.
  rewrite Exec_cons, exec_item_AList, bind_eq. cbn [ret fst snd].
  destruct H as [H|H].
  - rewrite (runs_through_Exec _ _ H). cbn [check].
    now rewrite Exec_app_runs.
  - assert (Hn : ~ runs_through inner w).
    { intros Hr. apply H. now apply runs_through_Exec. }
    rewrite (@Exec_app_stops inner rest w Hn).
    destruct (Exec inner w) as [[e|] w1]; cbn [fst snd check] in *;
      [reflexivity | now contradiction H].
Qed.

Lemma Exec_flatten_witness :
  (runs_through [Println ["a"]] World_zero \/
   fst (Exec [Println ["a"]] World_zero) <> None) /\
  Exec (AList [Println ["a"]] :: [Println ["b"]]) World_zero
  = Exec [Println ["a"]; Println ["b"]] World_zero /\
  Exec (AList [no_error; Println ["a"]] :: [Println ["b"]]) World_zero
  <> Exec [no_error; Println ["a"]; Println ["b"]] World_zero.
Proof.
  assert (H : runs_through [Println ["a"]] World_zero \/
              fst (Exec [Println ["a"]] World_zero) <> None).
  { left. split; [reflexivity | exact I]. }
  split; [exact H|]. split.
  - exact (@Exec_flatten [Println ["a"]] [Println ["b"]] World_zero H).
  - intros E. apply (f_equal (fun r => stdout (snd r))) in E.
    discriminate E.
Defined.

(** ** [Exec]: maps *)

Lemma range_map_nil : forall calls errs w,
  fst (range_map calls errs w) = [] <->
  errs = [] /\ fst (run_entries calls w) = succeeded calls.
Proof.
  induction calls as [|[name recall] rest IH]; intros errs w.
  - cbn. tauto.
  - rewrite run_entries_cons. cbn [range_map succeeded map fst].
    rewrite bind_eq.
    destruct (fst (Exec [recall] w)) as [e|].
    + rewrite bind_eq. unfold gets. cbn [fst snd]. rewrite IH.
      unfold Errors.Append. split.
      * intros [H _]. now destruct errs.
      * intros [_ H]. discriminate H.
    + rewrite IH. fold (succeeded rest). split.
      * intros [H1 H2]. split; [assumption | now rewrite H2].
      * intros [H1 H2]. split; [assumption | now injection H2].
Qed.

(** X9.  [Exec] on a map returns nil exactly when the [Exec] of every
    entry returned nil; in either case the state is the one left by
    running every entry in turn. *)
Theorem Exec_map_nil_iff : forall calls w,
  (fst (Exec [AMap calls] w) = None <->
   fst (run_entries calls w) = succeeded calls) /\
  snd (Exec [AMap calls] w) = snd (run_entries calls w).
Proof.
  intros calls w. split; [|apply Exec_map_world].
  rewrite Exec_single. cbn [fst]. rewrite exec_item_AMap, bind_eq.
  pose proof (range_map_nil calls [] w) as H.
  destruct (fst (range_map calls [] w)) as [|x errs] eqn:E.
  - cbn. split; intros _; [now apply H | reflexivity].
  - cbn. split; intros H1; [discriminate H1|].
    destruct H as [_ H]. discriminate H. now split.
Qed.

(** ** [NewWindow] and the window of a valid widget *)

Lemma NewWindow_eq : forall w,
  NewWindow w =
  (created w,
   mkWorld (app w) (pkg w) (application w)
           (windows w ++ NewApplicationWindow (created w)
              :: setup_calls (app w) (created w))%list
           (stdout w) (heap w)).
Proof.
  intros w. unfold NewWindow, gtk_NewApplicationWindow, setup_calls. run.
  destruct (negb (Title (app w) =? ""));
    destruct ((0 <? Width (app w))%Z && (0 <? Height (app w))%Z);
    cbn [when]; run; rewrite <- ?app_assoc; cbn [Datatypes.app];
    rewrite ?app_nil_r; reflexivity.
Qed.

(** X10.  [NewWindow] creates one window, with the next rank, and returns
    it; it touches nothing but the calls on windows.  It sets the title
    only when [Title] is not empty and the default size only when
    [Width] and [Height] are both positive: a size with one side at zero
    or below is dropped whole.  It never shows or closes a window. *)
Theorem NewWindow_spec : forall w,
  let win := created w in
  let w' := snd (NewWindow w) in
  fst (NewWindow w) = win /\
  outside_windows w' = outside_windows w /\ Win (app w') = Win (app w) /\
  windows w' = (windows w ++ NewApplicationWindow win
                  :: setup_calls (app w) win)%list /\
  created w' = S (created w) /\ shown w' = shown w /\ closed w' = closed w /\
  (forall t, In (SetTitle win t) (setup_calls (app w) win) <->
             t = Title (app w) /\ t <> "") /\
  (forall x y, In (SetDefaultSize win x y) (setup_calls (app w) win) <->
               x = Width (app w) /\ y = Height (app w) /\
               (0 < x)%Z /\ (0 < y)%Z).
Proof.
  intros w win w'. subst w'. rewrite NewWindow_eq. cbn [fst snd windows app].
  split; [reflexivity|]. split; [reflexivity|]. split; [reflexivity|].
  split; [reflexivity|].
  assert (Hcount : forall p,
    (forall i t, p (SetTitle i t) = false) ->
    (forall i x y, p (SetDefaultSize i x y) = false) ->
    length (filter p (windows w ++ NewApplicationWindow win
                        :: setup_calls (app w) win)%list)
    = (length (filter p (windows w))
       + if p (NewApplicationWindow win) then 1 else 0)%nat).
  { intros p Ht Hs. rewrite filter_app, length_app. f_equal.
    unfold setup_calls. cbn [filter].
    destruct (p (NewApplicationWindow win));
      destruct (negb (Title (app w) =? ""));
      destruct ((0 <? Width (app w))%Z && (0 <? Height (app w))%Z);
      cbn [Datatypes.app filter]; rewrite ?Ht, ?Hs; reflexivity. }
  unfold created, shown, closed. cbn [windows].
  rewrite !Hcount by reflexivity. cbn [is_new_window is_show is_close].
  split; [lia|]. split; [lia|]. split; [lia|].
  unfold setup_calls. split.
  - intros t. rewrite in_app_iff.
    assert (HS : ~ In (SetTitle win t)
                   (if (0 <? Width (app w))%Z && (0 <? Height (app w))%Z
                    then [SetDefaultSize win (Width (app w)) (Height (app w))]
                    else [])).
    { destruct ((0 <? Width (app w))%Z && (0 <? Height (app w))%Z);
        cbn [In]; intros H; [destruct H as [H|H]; [discriminate H|]|];
        exact H. }
    destruct (String.eqb_spec (Title (app w)) "") as [E|E]; cbn [negb In].
    + split; [intros [H|H]; [contradiction | now apply HS in H]|].
      intros [-> H]. contradiction.
    + split.
      * intros [[H|H]|H]; [|contradiction | now apply HS in H].
        injection H as <-. now split.
      * intros [-> _]. left. now left.
  - intros x y. rewrite in_app_iff.
    assert (HT : ~ In (SetDefaultSize win x y)
                   (if negb (Title (app w) =? "")
                    then [SetTitle win (Title (app w))] else [])).
    { destruct (negb (Title (app w) =? ""));
        cbn [In]; intros H; [destruct H as [H|H]; [discriminate H|]|];
        exact H. }
    destruct (0 <? Width (app w))%Z eqn:Ew;
      destruct (0 <? Height (app w))%Z eqn:Eh; cbn [andb In];
      rewrite ?Z.ltb_lt, ?Z.ltb_ge in *.
    + split.
      * intros [H|[H|H]]; [now apply HT in H | | contradiction].
        injection H as <- <-. tauto.
      * intros (-> & -> & _). right. now left.
    + split; [intros [H|H]; [now apply HT in H | contradiction]|].
      intros (_ & -> & _ & H). lia.
    + split; [intros [H|H]; [now apply HT in H | contradiction]|].
      intros (-> & _ & H & _). lia.
    + split; [intros [H|H]; [now apply HT in H | contradiction]|].
      intros (-> & _ & H & _). lia.
Qed.

Lemma opened_eq : forall w,
  opened w =
  mkWorld (set_Win (Some (created w)) (app w)) (pkg w) (application w)
          (windows w ++ NewApplicationWindow (created w)
             :: setup_calls (app w) (created w))%list
          (stdout w) (heap w).
Proof.
  intros w. unfold opened, open_window. rewrite bind_eq, NewWindow_eq.
  reflexivity.
Qed.

(** X11.  When the application is not headless and holds no window, a
    builder that leaves the windows alone and yields a widget gets one
    window: it is created and set up before the builder runs, is given
    the widget as its child and is shown, in this order, and [Win] holds
    it afterwards. *)
Theorem Pack_valid_widget : forall X (call : M (option Widget * X)) w child,
  blocked w = false ->
  keeps_gui call ->
  fst (fst (call (opened w))) = Some child ->
  let win := created w in
  let w' := snd (Pack call w) in
  windows w' = (windows w ++ NewApplicationWindow win
                  :: setup_calls (app w) win
                  ++ [SetChild win child; Show win])%list /\
  Win (app w') = Some win /\
  fst (Pack call w) = snd (fst (call (opened w))).
Proof.
  intros X call w child Hb Hk Hc win w'.
  destruct (@Pack_opened X call w Hb Hk) as (H1 & _ & H2).
  rewrite Hc in H2. destruct H2 as [H2 H3]. subst w' win.
  split; [|split; assumption].
  rewrite H3, opened_eq. cbn [windows]. rewrite <- app_assoc. reflexivity.
Qed.

Lemma Pack_valid_widget_witness :
  let call := plain (ret "hello") (fun s => Some (gtk_NewLabel s)) in
  let w := with_app (fun a => set_Title "Basic" (set_Size 400 0 a)) World_zero in
  blocked w = false /\
  keeps_gui call /\
  fst (fst (call (opened w))) = Some (Label "hello") /\
  windows (snd (Pack call w))
  = [NewApplicationWindow 0; SetTitle 0 "Basic";
     SetChild 0 (Label "hello"); Show 0].
Proof.
  intros call w.
  assert (Hk : keeps_gui call) by (intros w0; reflexivity).
  split; [reflexivity|]. split; [exact Hk|]. split; [reflexivity|].
  exact (proj1 (@Pack_valid_widget unit call w (Label "hello")
                  eq_refl Hk eq_refl)).
Defined.

(** ** [Exec] writes [Win] and the windows, nothing else *)

Lemma keeps_rest_bind : forall A B (m : M A) (k : A -> M B),
  keeps_rest m -> (forall w, keeps_rest (k (fst (m w)))) ->
  keeps_rest (bind m k).
Proof.
  intros A B m k Hm Hk w. rewrite bind_eq, Hk. apply Hm.
Qed.

Lemma keeps_rest_ret : forall A (a : A), keeps_rest (ret a).
Proof. intros A a w. reflexivity. Qed.

Lemma keeps_rest_gets : forall A (f : World -> A), keeps_rest (gets f).
Proof. intros A f w. reflexivity. Qed.

Lemma keeps_rest_on_Win : forall c, keeps_rest (on_Win c).
Proof.
  intros c w. unfold on_Win. rewrite bind_eq. unfold gets. cbn [fst snd].
  destruct (Win (app w)); reflexivity.
Qed.

Lemma keeps_rest_set_Win : forall o,
  keeps_rest (modify (with_app (set_Win o))).
Proof. intros o w. reflexivity. Qed.

Lemma keeps_rest_plain : forall A (call : M A) (f : A -> option Widget),
  keeps_rest call -> keeps_rest (plain call f).
Proof.
  intros. unfold plain. apply keeps_rest_bind; [assumption|].
  intros w. apply keeps_rest_ret.
Qed.

Lemma keeps_rest_widget_or_error : forall call,
  keeps_rest call -> keeps_rest (widget_or_error call).
Proof.
  intros. unfold widget_or_error. apply keeps_rest_bind; [assumption|].
  intros w. destruct (snd (fst (call w))); apply keeps_rest_ret.
Qed.

Lemma keeps_rest_widget_or_errors : forall call,
  keeps_rest call -> keeps_rest (widget_or_errors call).
Proof.
  intros. unfold widget_or_errors. apply keeps_rest_bind; [assumption|].
  intros w. destruct (Errors.IsError (snd (fst (call w))));
    apply keeps_rest_ret.
Qed.

Lemma keeps_rest_Pack : forall X (call : M (option Widget * X)),
  keeps_rest call -> keeps_rest (Pack call).
Proof.
  intros X call Hk w. rewrite Pack_eq. destruct (blocked w); [apply Hk|].
  transitivity (outside_windows (opened w));
    [|rewrite opened_eq; reflexivity].
  apply keeps_rest_bind; [assumption|]. intros w1.
  destruct (fst (fst (call w1))).
  - apply keeps_rest_bind; [apply keeps_rest_on_Win|]. intros _.
    apply keeps_rest_bind; [apply keeps_rest_on_Win|]. intros _.
    apply keeps_rest_ret.
  - apply keeps_rest_bind; [apply keeps_rest_on_Win|]. intros _.
    apply keeps_rest_bind; [apply keeps_rest_set_Win|]. intros _.
    apply keeps_rest_ret.
Qed.

#[local] Hint Resolve keeps_rest_ret keeps_rest_gets keeps_rest_plain
  keeps_rest_widget_or_error keeps_rest_widget_or_errors keeps_rest_Pack
  : gui.

Lemma keeps_rest_then : forall A B (m : M A) (b : B),
  keeps_rest m -> keeps_rest (bind m (fun _ => ret b)).
Proof.
  intros. apply keeps_rest_bind; [assumption|]. intros w.
  apply keeps_rest_ret.
Qed.

Lemma keeps_rest_exec_item : forall a, quiet a -> keeps_rest (exec_item a).
Proof.
  induction a as [a Hleaf|calls IH|calls IH] using Action_nested_ind;
    intros Hq.
  - destruct a; try discriminate Hleaf; inversion Hq; subst;
      cbn [exec_item Errors.IsError Datatypes.length Nat.ltb Nat.leb];
      try (apply keeps_rest_then; auto with gui; fail);
      try (apply keeps_rest_bind; [auto with gui|];
           intros w; auto with gui; fail).
    apply keeps_rest_bind; [assumption|]. intros w.
    apply keeps_rest_then. auto.
  - inversion Hq as [| | | | | | | | | | | |calls' Hall| | | | |]; subst.
    assert (H : keeps_rest (Exec calls)).
    { clear Hq. induction IH as [|x rest Hx _ IHrest].
      - apply keeps_rest_ret.
      - inversion Hall; subst. cbn [Exec].
        apply keeps_rest_bind; [auto|]. intros w.
        destruct (fst (exec_item x w)); auto with gui. }
    intros w. rewrite exec_item_AList.
    apply keeps_rest_bind; [assumption | auto with gui].
  - inversion Hq as [| | | | | | | | | | | | |calls' Hall| | | |]; subst.
    assert (H : forall errs, keeps_rest (range_map calls errs)).
    { clear Hq. induction IH as [|[name x] rest Hx _ IHrest]; intros errs.
      - apply keeps_rest_ret.
      - inversion Hall; subst. cbn [range_map snd] in *.
        apply keeps_rest_bind.
        + intros w. rewrite Exec_single. cbn [snd]. now apply Hx.
        + intros w. destruct (fst (Exec [x] w)); [|now apply IHrest].
          apply keeps_rest_bind; [auto with gui|]. intros w1.
          now apply IHrest. }
    intros w. rewrite exec_item_AMap.
    apply keeps_rest_bind; [apply H|].
    intros w1. destruct (Errors.IsError (fst (range_map calls [] w1)));
      auto with gui.
Qed.



(** ** [SetHeadless] among the actions *)

(** X13.  [SetHeadless] as the first action of [Exec]: the actions behind
    it, when they leave the windows alone, create no window; a window
    held already stays as it is, open and in [Win]. *)
Theorem SetHeadless_action_stops_windows : forall cb rest w,
  Forall gui_safe rest ->
  let r := Exec (Param_action cb SetHeadless :: rest) w in
  Headless (app (snd r)) = true /\
  Win (app (snd r)) = Win (app w) /\
  windows (snd r) = windows w /\
  fst r = fst (Exec rest (with_app (set_Headless true) w)).
Proof.
  intros cb rest w Hsafe r. subst r. rewrite Exec_cons.
  cbn [exec_item Param_action]. rewrite bind_eq. cbn [ret fst snd].
  change (decl_world (SetHeadless (mkDecl cb w)))
    with (with_app (set_Headless true) w).
  pose proof (Exec_one_window Hsafe (with_app (set_Headless true) w)) as H.
  unfold one_window in H.
  change (blocked (with_app (set_Headless true) w)) with true in H.
  destruct (gui_eq H) as (H1 & H2 & H3).
  rewrite H1, H2, H3. repeat split.
Qed.

Lemma SetHeadless_action_stops_windows_witness :
  Forall gui_safe [AString "a"; Exit 0] /\
  windows (snd (Exec (Param_action no_callbacks SetHeadless
                        :: [AString "a"; Exit 0]) World_zero)) = [].
Proof.
  assert (Hsafe : Forall gui_safe [AString "a"; Exit 0]).
  { repeat constructor; intros w; reflexivity. }
  split; [exact Hsafe|].
  exact (proj1 (proj2 (proj2 (@SetHeadless_action_stops_windows no_callbacks
                                [AString "a"; Exit 0] World_zero Hsafe)))).
Defined.

(** ** [Init], in full *)


Lemma Init_world : forall env cb call call' w,
  snd (Init env cb call w) = snd (Init env cb call' w).
Proof.
  intros. unfold Init. run.
  destruct (GuessName (app w)); run.
  - destruct (packageName env) as [repo packag]. run.
    destruct (ID (app w) =? ""); run;
      destruct (Title (app w) =? ""); run;
      destruct (OnInit cb), (OnStop cb); reflexivity.
  - destruct (OnInit cb), (OnStop cb); reflexivity.
Qed.

Lemma Init_handlers : forall env cb call w,
  fst (Init env cb call w) = mkHandlers (OnInit cb) call (OnStop cb).
Proof.
  intros. unfold Init. run.
  destruct (GuessName (app w)); run.
  - destruct (packageName env) as [repo packag]. run.
    destruct (ID (app w) =? ""); run;
      destruct (Title (app w) =? ""); run;
      destruct (OnInit cb), (OnStop cb); reflexivity.
  - destruct (OnInit cb), (OnStop cb); reflexivity.
Qed.

Lemma Init_exitCode : forall env cb call w,
  exitCode (app (snd (Init env cb call w))) = exitCode (app w).
Proof.
  intros. unfold Init. run.
  destruct (GuessName (app w)); run.
  - destruct (packageName env) as [repo packag]. run.
    destruct (ID (app w) =? ""); run;
      destruct (Title (app w) =? ""); run;
      destruct (OnInit cb), (OnStop cb); reflexivity.
  - destruct (OnInit cb), (OnStop cb); reflexivity.
Qed.



(** ** [Run], when the toolkit raises activate once *)

Lemma Run_once : forall env cb calls w,
  gtk_activations env = 1%nat ->
  let calls' := match OnRun cb with
                | Some onRun => onRun :: calls
                | None => calls
                end in
  let ws := started env cb w in
  let wz := snd (emit (OnStop cb) (snd (Exec calls' ws))) in
  Run env cb calls w =
  match fst (Exec calls' ws) with
  | Some e =>
    (1%Z, snd (fmt_Print (fmt_Sprintf (Pkg.FmtErrRun (pkg wz) ++ newline)
                            [err_operand e]) wz))
  | None =>
    (if (exitCode (app wz) =? 0)%Z then gtk_status env
     else exitCode (app wz), wz)
  end.
Proof.
  intros env cb calls w Hact calls' ws wz.
  unfold Run. fold calls'. rewrite bind_eq, Init_handlers.
  rewrite (Init_world env cb (Exec calls') (ret None) w).
  rewrite bind_eq. unfold gets at 1. cbn [fst snd].
  unfold gtk_Application_Run. rewrite Hact. cbn [emit_activate].
  cbn [on_startup on_activate on_shutdown].
  rewrite !bind_eq. unfold gets. cbn [ret fst snd].
  fold (started env cb w). fold ws. fold wz.
  destruct (fst (Exec calls' ws)) as [e|].
  - run. reflexivity.
  - unfold ExitCode. run.
    destruct (exitCode (app wz) =? 0)%Z; reflexivity.
Qed.



Lemma started_exitCode : forall env w,
  exitCode (app (started env no_callbacks w)) = exitCode (app w).
Proof.
  intros. unfold started. cbn [emit OnInit no_callbacks].
  unfold app_call. run. apply Init_exitCode.
Qed.

(** X17.  [Run] does not reset the stored exit code.  When the toolkit
    raises activate once, no callback is set, and the actions end
    without an error and, for their closures, write nothing but the
    windows (so none calls [Exit]), [Run] returns the code stored before
    it started unless that is zero, and the status of the toolkit
    otherwise. *)
Theorem Run_returns_stored_code : forall env calls w,
  gtk_activations env = 1%nat ->
  Forall quiet calls ->
  fst (Exec calls (started env no_callbacks w)) = None ->
  fst (Run env no_callbacks calls w)
  = if (exitCode (app w) =? 0)%Z then gtk_status env else exitCode (app w).
Proof.
  intros env calls w Hact Hq He.
  rewrite (Run_once env no_callbacks calls w Hact).
  cbn [OnRun OnStop no_callbacks emit ret snd]. rewrite He. cbn [fst].
  pose proof (keeps_rest_exec_item (q_List Hq)
                (started env no_callbacks w)) as H.
  rewrite exec_item_AList, bind_eq in H. cbn [ret snd] in H.
  apply (f_equal (fun t => exitCode (fst (fst (fst (fst t)))))) in H.
  cbn [outside_windows fst set_Win exitCode] in H.
  rewrite H, started_exitCode. reflexivity.
Qed.

Lemma Run_returns_stored_code_witness :
  let w := snd (Run (env_sample 0) no_callbacks [Exit 42] World_zero) in
  gtk_activations (env_sample 0) = 1%nat /\
  Forall quiet [AString "second run"] /\
  fst (Exec [AString "second run"] (started (env_sample 0) no_callbacks w))
  = None /\
  fst (Run (env_sample 0) no_callbacks [AString "second run"] w) = 42%Z.
Proof.
  intros w.
  assert (Hq : Forall quiet [AString "second run"]).
  { repeat constructor. }
  split; [reflexivity|]. split; [exact Hq|]. split; [reflexivity|].
  exact (@Run_returns_stored_code (env_sample 0) [AString "second run"] w
           eq_refl Hq eq_refl).
Defined.

Lemma exitCode_outside : forall w w',
  outside_windows w' = outside_windows w ->
  exitCode (app w') = exitCode (app w).
Proof.
  intros w w' H.
  apply (f_equal (fun t => exitCode (fst (fst (fst (fst t)))))) in H.
  exact H.
Qed.

(** X18.  [Exit] among the actions stores its code and asks the
    application to quit, and the actions behind it still run.  When the
    toolkit raises activate once, the actions ahead of [Exit] end their
    turns, the ones behind it end without an error and, for their
    closures, write nothing but the windows, and no [OnRun] or [OnStop]
    is set, then [Run] returns the code given to [Exit], or the status
    of the toolkit when that code is zero. *)
Theorem Run_Exit : forall env onInit before c after w,
  gtk_activations env = 1%nat ->
  let cb := mkCallbacks onInit None None in
  let ws := started env cb w in
  let wx := snd (App_Exit c (snd (Exec before ws))) in
  runs_through before ws ->
  Forall quiet after ->
  fst (Exec after wx) = None ->
  Run env cb (before ++ Exit c :: after)%list w
  = (if (c =? 0)%Z then gtk_status env else c, snd (Exec after wx)) /\
  In Quit (application wx).
Proof.
  intros env onInit before c after w Hact cb ws wx Hrun Hq He.
  split.
  - rewrite (Run_once env cb _ w Hact).
    cbn [OnRun OnStop cb emit ret snd]. fold ws.
    rewrite (@Exec_app_runs before (Exit c :: after) ws Hrun), Exec_cons.
    cbn [Exit exec_item]. rewrite bind_eq. cbn [ret fst snd]. fold wx.
    rewrite He.
    pose proof (keeps_rest_exec_item (q_List Hq) wx) as H.
    rewrite exec_item_AList, bind_eq in H. cbn [ret snd] in H.
    rewrite (exitCode_outside H). reflexivity.
  - subst wx. unfold App_Exit, app_call. run.
    apply in_or_app. right. now left.
Qed.

Lemma Run_Exit_witness :
  let env := env_sample 0 in
  let cb := mkCallbacks None None None in
  gtk_activations env = 1%nat /\
  runs_through [Println ["a"]] (started env cb World_zero) /\
  Forall quiet [AString "b"] /\
  fst (Run env cb ([Println ["a"]] ++ Exit 42 :: [AString "b"])%list
         World_zero) = 42%Z /\
  windows (snd (Run env cb ([Println ["a"]] ++ Exit 42 :: [AString "b"])%list
                  World_zero))
  = [NewApplicationWindow 0; SetChild 0 (Label "b"); Show 0].
Proof.
  intros env cb.
  assert (Hrun : runs_through [Println ["a"]] (started env cb World_zero)).
  { split; [reflexivity | exact I]. }
  assert (Hq : Forall quiet [AString "b"]) by (repeat constructor).
  destruct (@Run_Exit env None [Println ["a"]] 42%Z [AString "b"] World_zero
              eq_refl Hrun Hq eq_refl) as [H _].
  split; [reflexivity|]. split; [exact Hrun|]. split; [exact Hq|].
  fold cb in H. rewrite H. split; reflexivity.
Defined.

(** ** Params *)




Lemma App_Set_keeps_size : forall params d,
  Forall keeps_size params ->
  Width (app (decl_world (App_Set params d))) = Width (app (decl_world d)) /\
  Height (app (decl_world (App_Set params d))) = Height (app (decl_world d)).
Proof.
  induction params as [|p params IH]; intros d H; [now split|].
  inversion H as [|? ? Hp Hrest]; subst. cbn [App_Set].
  destruct (IH (p d) Hrest) as [IH1 IH2]. destruct (Hp d) as [H1 H2].
  split; congruence.
Qed.

(** X21.  The Apps of [NewSized] and of the four constructors with a
    fixed size have the size given, 400 by 200, 600 by 400, 800 by 600
    and 1000 by 800, so both sides positive, provided no Param among
    the arguments writes [Width] or [Height]. *)
Theorem New_sizes : forall params w,
  Forall keeps_size params ->
  let size d := (Width (app (decl_world d)), Height (app (decl_world d))) in
  (forall width height, size (NewSized width height params w) = (width, height)) /\
  size (NewTiny params w) = (400, 200)%Z /\
  size (NewSmall params w) = (600, 400)%Z /\
  size (NewMedium params w) = (800, 600)%Z /\
  size (NewLarge params w) = (1000, 800)%Z.
Proof.
  intros params w H size.
  assert (Hs : forall width height,
             size (NewSized width height params w) = (width, height)).
  { intros width height. unfold size, NewSized.
    destruct (@App_Set_keeps_size params
                (fresh (set_Size width height App_zero) w) H) as [-> ->].
    reflexivity. }
  split; [exact Hs|]. repeat split; apply Hs.
Qed.

Lemma New_sizes_witness :
  let params := [SetTitle_ "Basic"; SetHeadless; SetOnRun [AString "a"];
                 Set_ [SetID "org.gtk.example"; SetGuessName]] in
  Forall keeps_size params /\
  (Width (app (decl_world (NewTiny params World_zero))),
   Height (app (decl_world (NewTiny params World_zero)))) = (400, 200)%Z /\
  Title (app (decl_world (NewTiny params World_zero))) = "Basic".
Proof.
  intros params.
  assert (H : Forall keeps_size params).
  { repeat constructor; intros d; split; reflexivity. }
  split; [exact H|]. split; [|reflexivity].
  exact (proj1 (proj2 (@New_sizes params World_zero H))).
Defined.
